(** * GenericSync: replication of Kubernetes resources into OPA

    A shallow embedding of [pkg/data/generic.go] (package [data]) and the
    properties of its reconciliation cycle ([sync]) and retry loop ([loop]).

    The two collaborators of the synchronizer, the dynamic Kubernetes client
    and the OPA data client, are external.  They are modelled by an
    environment [Env] whose answers may depend on everything that happened
    so far; every call the synchronizer makes is recorded, together with its
    answer, in a chronological [Trace].  The code under study is a state
    monad over that trace.  Log output is not modelled.

    Line numbers refer to [pkg/data/generic.go]. *)

From Stdlib Require Import ZArith List String Bool Lia.
Import ListNotations.

Local Open Scope string_scope.
Local Open Scope list_scope.
Local Open Scope Z_scope.

(* ===================================================================== *)
(** * Data model *)
(* ===================================================================== *)

(** ** time.Duration

    A [time.Duration] is an [int64] count of nanoseconds. *)

Definition Duration := Z.

Definition wrap64 (x : Z) : Z := (x + 2 ^ 63) mod 2 ^ 64 - 2 ^ 63.

Module time.
Definition Nanosecond : Duration := 1.
Definition Second : Duration := 1000000000 * Nanosecond.
End time.

(** The min/max amount of time to wait when resetting the synchronizer. *)
Definition backoffMax : Duration := time.Second * 30.
Definition backoffMin : Duration := time.Second.

(** ** Objects

    [unstructured.Unstructured] is a JSON object; the synchronizer reads only
    [metadata.name] and [metadata.namespace] (both read as the empty string when
    absent) and forwards the rest untouched. *)

Record Unstructured := {
  Name : string;
  Namespace : string;
  Content : string
}.

Definition GetName (m : Unstructured) : string := Name m.
Definition GetNamespace (m : Unstructured) : string := Namespace m.

(** A [runtime.Object] as carried by a watch event: an unstructured resource,
    a [*metav1.Status] (which has no object metadata), or the nil interface
    (the [Object] of the zero [watch.Event]). *)
Inductive Object :=
| ObjUnstructured (u : Unstructured)
| ObjStatus (message : string)
| ObjNil.

(** ** Go error values

    An [error] is an interface value; what exists at run time is its dynamic
    value, of some concrete type.  [errorString] stands for the leaf errors of
    the collaborators, [fmtError] for the result of [fmt.Errorf] with one
    operand, [withStack] for the result of [errors.Wrap], and [errChannelClosed]
    for the composite literal [errChannelClosed{}]. *)
Inductive error :=
| errorString (s : string)
| fmtError (format : string) (operand : Object)
| withStack (cause : error) (message : string)
| errChannelClosed.

Inductive ConcreteType :=
| T_errorString | T_fmtError | T_withStack | T_errChannelClosed.

Definition dynamicType (err : error) : ConcreteType :=
  match err with
  | errorString _ => T_errorString
  | fmtError _ _ => T_fmtError
  | withStack _ _ => T_withStack
  | errChannelClosed => T_errChannelClosed
  end.

(** Method sets.  [func (errChannelClosed) Error() string] is declared at
    lines 124-126; the other three are the library types behind [errors.New],
    [fmt.Errorf] and [errors.Wrap]. *)
Definition methodSet (t : ConcreteType) : list string :=
  match t with
  | T_errorString => ["Error"]
  | T_fmtError => ["Error"]
  | T_withStack => ["Error"; "Cause"; "Format"]
  | T_errChannelClosed => ["Error"]
  end.

Definition ConcreteType_eqb (a b : ConcreteType) : bool :=
  match a, b with
  | T_errorString, T_errorString
  | T_fmtError, T_fmtError
  | T_withStack, T_withStack
  | T_errChannelClosed, T_errChannelClosed => true
  | _, _ => false
  end.

(** The types named by the program.  A Go type is either concrete or an
    interface, given by the methods it demands. *)
Inductive GoType :=
| Concrete (t : ConcreteType)
| Interface (methods : list string).

(** The predeclared [error] is [interface { Error() string }]. *)
Definition error_type : GoType := Interface ["Error"].

(** [type errKubernetes error] and [type errOPA error] (lines 118-120): a
    type definition gives the new type the underlying type of the given one,
    and the underlying type of [error] is an interface; so each of the two
    is an interface type, with the method set of [error].
    [type errChannelClosed struct{}] (line 122) is concrete. *)
Definition errKubernetes_type : GoType := error_type.
Definition errOPA_type : GoType := error_type.
Definition errChannelClosed_type : GoType := Concrete T_errChannelClosed.

Definition implements (t : ConcreteType) (methods : list string) : bool :=
  forallb (fun m => existsb (String.eqb m) (methodSet t)) methods.

(** Whether a case [T] of a type switch on [err] matches.  As for the type
    assertion [err.(T)]: if [T] is not an interface type, the dynamic type
    of [err] must be identical to [T]; if [T] is an interface type, the
    dynamic type of [err] must implement [T]. *)
Definition caseMatches (T : GoType) (err : error) : bool :=
  match T with
  | Concrete t => ConcreteType_eqb (dynamicType err) t
  | Interface methods => implements (dynamicType err) methods
  end.

(** The conversions [errKubernetes(e)] and [errOPA(e)] take an interface
    value to another interface type.  Such a conversion keeps the dynamic
    type and value; nothing at run time records which one was applied. *)
Definition errKubernetes (e : error) : error := e.
Definition errOPA (e : error) : error := e.

Module errors.
(** [errors.Wrap(err, message)] for a non-nil [err]. *)
Definition Wrap (err : error) (message : string) : error :=
  withStack err message.
End errors.

Module fmt.
(** [fmt.Errorf(format, operand)]. *)
Definition Errorf (format : string) (operand : Object) : error :=
  fmtError format operand.
End fmt.

Inductive Result (A : Type) :=
| Ok (a : A)
| Err (err : error).
Arguments Ok {A} a.
Arguments Err {A} err.

Module meta.
Definition errNotObject : error :=
  errorString "object does not implement the Object interfaces".

(** [meta.Accessor(obj)]: the object's metadata, or [errNotObject]. *)
Definition Accessor (obj : Object) : Result Unstructured :=
  match obj with
  | ObjUnstructured u => Ok u
  | ObjStatus _ => Err errNotObject
  | ObjNil => Err errNotObject
  end.
End meta.

(** ** Watch events *)

Module watch.
Definition EventType := string.
Definition Added : EventType := "ADDED".
Definition Modified : EventType := "MODIFIED".
Definition Deleted : EventType := "DELETED".
Definition Error : EventType := "ERROR".

Record Event := {
  Type_ : EventType;
  Object_ : Object
}.

(** The zero value, which a receive on a closed channel yields. *)
Definition zeroEvent : Event :=
  {| Type_ := EmptyString; Object_ := ObjNil |}.
End watch.

(** ** The synchronizer's own types *)

Module types.
Record ResourceType := {
  Namespaced : bool;
  Group : string;
  Version : string;
  Resource : string
}.
End types.

(** [GenericSync]; the Kubernetes configuration and the OPA client belong to
    the environment below. *)
Record GenericSync := {
  ns : types.ResourceType
}.

(** The result of [resource.List]: an [UnstructuredList]. *)
Record UnstructuredList := {
  Items : list Unstructured;
  ResourceVersion : string
}.

Definition GetResourceVersion (l : UnstructuredList) : string :=
  ResourceVersion l.

(* ===================================================================== *)
(** * The environment and the trace *)
(* ===================================================================== *)

(** The value handed to the sink: an object, the empty map
    [map[string]interface{}{}], or [nil]. *)
Inductive Value :=
| VObject (obj : Object)
| VEmptyMap
| VNil.

(** What one [select] of the event loop picks: a receive from the watcher's
    result channel, or a receive from [quit]. *)
Inductive Select :=
| SelEvent (evt : watch.Event)
| SelQuit.

(** One entry of the trace: a call together with the answer it got.
    [IORecv] is a receive of an event from the result channel, [IOClosed] a
    receive from that channel once closed, [IOQuit] a receive from [quit],
    [IOStop] the deferred [w.Stop()]. *)
Inductive IO :=
| IOList (r : Result UnstructuredList)
| IOWatch (resourceVersion : string) (r : option error)
| IOStop
| IORecv (evt : watch.Event)
| IOClosed
| IOQuit
| IOPutData (path : string) (v : Value) (r : option error)
| IOPatchData (path op : string) (v : Value) (r : option error)
| IOTimer (d : Duration) (fired : bool).

Definition Trace := list IO.

(** The collaborators.  Every answer may depend on the whole history.

    - [List_] answers [resource.List(metav1.ListOptions{})].
    - [Watch_] answers [resource.Watch] at a resource version: an error, or
      the watcher, given by what the successive [select]s of the event loop
      will pick; once that sequence is exhausted the result channel is
      closed.
    - [PutData_] and [PatchData_] answer the OPA data client.
    - [Timer_] answers the race between a timer of the given duration and
      [quit]: [true] when the timer fires first. *)
Record Env := {
  List_ : Trace -> Result UnstructuredList;
  Watch_ : Trace -> string -> Result (list Select);
  PutData_ : Trace -> string -> Value -> option error;
  PatchData_ : Trace -> string -> string -> Value -> option error;
  Timer_ : Trace -> Duration -> bool
}.

(** ** The monad *)

Definition M (A : Type) : Type := Trace -> A * Trace.

Definition ret {A} (a : A) : M A := fun tr => (a, tr).

Definition bind {A B} (m : M A) (k : A -> M B) : M B :=
  fun tr => k (fst (m tr)) (snd (m tr)).

Definition ask {A} (f : Trace -> A) : M A := fun tr => (f tr, tr).

Definition emit (e : IO) : M unit := fun tr => (tt, tr ++ [e]).

Declare Scope sync_scope.
Delimit Scope sync_scope with sync.
Notation "x <- m ;; k" := (bind m (fun x => k))
  (at level 61, m at next level, right associativity) : sync_scope.
Notation "m ;;; k" := (bind m (fun _ => k))
  (at level 61, right associativity) : sync_scope.
Local Open Scope sync_scope.

(* ===================================================================== *)
(** * The program *)
(* ===================================================================== *)

Section Program.

Variable env : Env.
Variable s : GenericSync.

(** ** Calls to the collaborators *)

Definition resource_List : M (Result UnstructuredList) :=
  r <- ask (List_ env);;
  emit (IOList r);;;
  ret r.

Definition resource_Watch (resourceVersion : string)
  : M (Result (list Select)) :=
  r <- ask (fun tr => Watch_ env tr resourceVersion);;
  emit (IOWatch resourceVersion
          match r with Ok _ => None | Err err => Some err end);;;
  ret r.

Definition opa_PutData (path : string) (v : Value) : M (option error) :=
  r <- ask (fun tr => PutData_ env tr path v);;
  emit (IOPutData path v r);;;
  ret r.

Definition opa_PatchData (path op : string) (v : Value) : M (option error) :=
  r <- ask (fun tr => PatchData_ env tr path op v);;
  emit (IOPatchData path op v r);;;
  ret r.

(** [t := time.NewTimer(delay); select { case <-t.C: ...; case <-quit: ... }]:
    [true] when the timer fired. *)
Definition timer_or_quit (delay : Duration) : M bool :=
  fired <- ask (fun tr => Timer_ env tr delay);;
  emit (IOTimer delay fired);;;
  ret fired.

(** ** syncAdd, syncRemove, syncReset (lines 205-233) *)

Definition syncAdd (obj : Object) : M (option error) :=
  match meta.Accessor obj with
  | Err err => ret (Some err)
  | Ok m =>
      let name := GetName m in
      let path := GetName m in
      let path :=
        if types.Namespaced (ns s)
        then (GetNamespace m ++ "/" ++ name)%string
        else path in
      opa_PutData path (VObject obj)
  end.

Definition syncRemove (obj : Object) : M (option error) :=
  match meta.Accessor obj with
  | Err err => ret (Some err)
  | Ok m =>
      let name := GetName m in
      let path := GetName m in
      let path :=
        if types.Namespaced (ns s)
        then (GetNamespace m ++ "/" ++ name)%string
        else path in
      opa_PatchData path "remove" VNil
  end.

Definition syncReset : M (option error) :=
  opa_PutData "/" VEmptyMap.

(** ** sync (lines 132-203) *)

(** [for _, item := range result.Items { ... syncAdd(&item) ... }]: the
    result is the error the enclosing function returns, if any. *)
Fixpoint load (items : list Unstructured) : M (option error) :=
  match items with
  | [] => ret None
  | item :: rest =>
      err <- syncAdd (ObjUnstructured item);;
      match err with
      | Some err => ret (Some (errOPA (errors.Wrap err "list add")))
      | None => load rest
      end
  end.

(** What the [switch evt.Type] does with a received event. *)
Inductive Switched :=
| Returns (err : error)
| FallsThrough.

Definition switch_event (evt : watch.Event) : M Switched :=
  if String.eqb (watch.Type_ evt) watch.Added then
    err <- syncAdd (watch.Object_ evt);;
    match err with
    | Some err => ret (Returns (errOPA (errors.Wrap err "add event")))
    | None => ret FallsThrough
    end
  else if String.eqb (watch.Type_ evt) watch.Modified then
    err <- syncAdd (watch.Object_ evt);;
    match err with
    | Some err => ret (Returns (errOPA (errors.Wrap err "modify event")))
    | None => ret FallsThrough
    end
  else if String.eqb (watch.Type_ evt) watch.Deleted then
    err <- syncRemove (watch.Object_ evt);;
    match err with
    | Some err => ret (Returns (errOPA (errors.Wrap err "delete event")))
    | None => ret FallsThrough
    end
  else if String.eqb (watch.Type_ evt) watch.Error then
    ret (Returns
           (errKubernetes (fmt.Errorf "error event: %v" (watch.Object_ evt))))
  else
    ret (Returns errChannelClosed).

(** The receive from the closed result channel yields the zero event.  Its
    type is the empty string, none of the four, so the switch returns
    through its default case ([closed_channel_run] below); the other branch
    of the match is never taken. *)
Definition closed_channel : M (option error) :=
  emit IOClosed;;;
  r <- switch_event watch.zeroEvent;;
  match r with
  | Returns err => ret (Some err)
  | FallsThrough => ret (Some errChannelClosed)
  end.

(** [for { select { case evt := <-ch: ...; case <-quit: return nil } }],
    along the picks of the successive selects. *)
Fixpoint event_loop (ch : list Select) : M (option error) :=
  match ch with
  | [] => closed_channel
  | SelQuit :: _ =>
      emit IOQuit;;;
      ret None
  | SelEvent evt :: rest =>
      emit (IORecv evt);;;
      r <- switch_event evt;;
      match r with
      | Returns err => ret (Some err)
      | FallsThrough => event_loop rest
      end
  end.

Definition sync : M (option error) :=
  listed <- resource_List;;
  match listed with
  | Err err => ret (Some (errKubernetes (errors.Wrap err "list")))
  | Ok result =>
      let resourceVersion := GetResourceVersion result in
      err <- syncReset;;
      match err with
      | Some err => ret (Some (errOPA (errors.Wrap err "reset")))
      | None =>
          err <- load (Items result);;
          match err with
          | Some err => ret (Some err)
          | None =>
              w <- resource_Watch resourceVersion;;
              match w with
              | Err err =>
                  ret (Some (errKubernetes (errors.Wrap err "watch")))
              | Ok ch =>
                  r <- event_loop ch;;
                  (* defer w.Stop() *)
                  emit IOStop;;;
                  ret r
              end
          end
      end
  end.

(** ** loop (lines 63-116) *)

(** The case the type switch [switch err.(type)] of [loop] selects: the
    first, in source order, that matches; none, if no case matches (the
    switch has no default). *)
Inductive LoopCase :=
| case_errChannelClosed
| case_errOPA
| case_errKubernetes
| case_none.

Definition typeSwitch (err : error) : LoopCase :=
  if caseMatches errChannelClosed_type err then case_errChannelClosed
  else if caseMatches errOPA_type err then case_errOPA
  else if caseMatches errKubernetes_type err then case_errKubernetes
  else case_none.

(** How one iteration of the [for] ends. *)
Inductive Flow :=
| Return_
| Next (delay : Duration).

(** [case errChannelClosed:] (lines 86-88). *)
Definition on_errChannelClosed (delay : Duration) : M Flow :=
  let delay := backoffMin in
  ret (Next delay).

(** [case errOPA:] (lines 90-99). *)
Definition on_errOPA (delay : Duration) : M Flow :=
  let delay := backoffMin in
  fired <- timer_or_quit delay;;
  if fired then ret (Next delay) else ret Return_.

(** [delay *= 2; if delay > backoffMax { delay = backoffMax }]. *)
Definition grow (delay : Duration) : Duration :=
  let delay := wrap64 (delay * 2) in
  if delay >? backoffMax then backoffMax else delay.

(** [case errKubernetes:] (lines 101-113). *)
Definition on_errKubernetes (delay : Duration) : M Flow :=
  let delay := grow delay in
  fired <- timer_or_quit delay;;
  if fired then ret (Next delay) else ret Return_.

Definition loop_body (delay : Duration) : M Flow :=
  err <- sync;;
  match err with
  | None => ret Return_
  | Some err =>
      match typeSwitch err with
      | case_errChannelClosed => on_errChannelClosed delay
      | case_errOPA => on_errOPA delay
      | case_errKubernetes => on_errKubernetes delay
      | case_none => ret (Next delay)
      end
  end.

(** At most [fuel] iterations of the [for]; [true] when [loop] returned. *)
Fixpoint loop_from (fuel : nat) (delay : Duration) : M bool :=
  match fuel with
  | O => ret false
  | S fuel =>
      flow <- loop_body delay;;
      match flow with
      | Return_ => ret true
      | Next delay => loop_from fuel delay
      end
  end.

Definition loop (fuel : nat) : M bool :=
  let delay := backoffMin in
  loop_from fuel delay.

End Program.

Arguments loop_body env s delay tr : simpl never.

(* ===================================================================== *)
(** * Reading a trace *)
(* ===================================================================== *)

(** A call to the sink, without its answer. *)
Inductive SinkCall :=
| PutData (path : string) (v : Value)
| PatchData (path op : string) (v : Value).

(** The three operations of the sink, as the specification names them. *)
Definition reset : SinkCall := PutData "/" VEmptyMap.
Definition upsert (path : string) (obj : Object) : SinkCall :=
  PutData path (VObject obj).
Definition remove (path : string) : SinkCall :=
  PatchData path "remove" VNil.

Definition sink_call (e : IO) : list SinkCall :=
  match e with
  | IOPutData path v _ => [PutData path v]
  | IOPatchData path op v _ => [PatchData path op v]
  | _ => []
  end.

Definition sink_calls (tr : Trace) : list SinkCall := flat_map sink_call tr.

Definition received (tr : Trace) : list watch.Event :=
  flat_map (fun e => match e with IORecv evt => [evt] | _ => [] end) tr.

Definition waits (tr : Trace) : list Duration :=
  flat_map (fun e => match e with IOTimer d _ => [d] | _ => [] end) tr.

Definition is_sink (e : IO) : bool :=
  match e with
  | IOPutData _ _ _ | IOPatchData _ _ _ _ => true
  | _ => false
  end.

Definition is_source (e : IO) : bool :=
  match e with
  | IOList _ | IOWatch _ _ => true
  | _ => false
  end.

(** What the event loop itself may append: receives and sink calls. *)
Definition is_loop_io (e : IO) : bool :=
  match e with
  | IORecv _ | IOClosed | IOQuit
  | IOPutData _ _ _ | IOPatchData _ _ _ _ => true
  | _ => false
  end.

(** A sink call that the sink rejected. *)
Definition sink_rejected (e : IO) : bool :=
  match e with
  | IOPutData _ _ (Some _) | IOPatchData _ _ _ (Some _) => true
  | _ => false
  end.

(** The stop signal was observed: a select picked the receive from [quit],
    in the event loop or during a backoff wait. *)
Definition stop_observed (e : IO) : bool :=
  match e with
  | IOQuit | IOTimer _ false => true
  | _ => false
  end.

(** ** PathMapper, after the specification

    The object's name if the resource type is not namespaced, else the
    namespace, a slash, and the name. *)
Definition storage_path (rt : types.ResourceType) (m : Unstructured) : string :=
  if types.Namespaced rt
  then (Namespace m ++ "/" ++ Name m)%string
  else Name m.

(** The sink operation that corresponds to a change event: an upsert for
    Added and Modified, a remove for Deleted, none for anything else (nor
    for an object that has no identity). *)
Definition event_call (rt : types.ResourceType) (evt : watch.Event)
  : list SinkCall :=
  match meta.Accessor (watch.Object_ evt) with
  | Err _ => []
  | Ok m =>
      if String.eqb (watch.Type_ evt) watch.Added
         || String.eqb (watch.Type_ evt) watch.Modified
      then [upsert (storage_path rt m) (watch.Object_ evt)]
      else if String.eqb (watch.Type_ evt) watch.Deleted
      then [remove (storage_path rt m)]
      else []
  end.

Definition data_event (evt : watch.Event) : bool :=
  String.eqb (watch.Type_ evt) watch.Added
  || String.eqb (watch.Type_ evt) watch.Modified
  || String.eqb (watch.Type_ evt) watch.Deleted.

(** The four outcomes of a cycle, as the retry loop tells them apart. *)
Inductive Outcome :=
| GracefulStop
| SinkFailure
| SourceFailure
| ChannelClosed.

Definition outcome (r : option error) : option Outcome :=
  match r with
  | None => Some GracefulStop
  | Some err =>
      match typeSwitch err with
      | case_errChannelClosed => Some ChannelClosed
      | case_errOPA => Some SinkFailure
      | case_errKubernetes => Some SourceFailure
      | case_none => None
      end
  end.

(** ** Reading the stop signal off a trace *)

(** Neither a call to the source nor a call to the sink. *)
Definition idle (e : IO) : bool := negb (is_source e || is_sink e).

(** What the worker still does once a select has picked the stop signal:
    the deferred [w.Stop()] if that was in the event loop, nothing if it
    was during a backoff wait. *)
Definition after_stop (q : IO) : Trace :=
  match q with
  | IOQuit => [IOStop]
  | _ => []
  end.

(** The stop signal shows once, at the end. *)
Definition stopped (ext : Trace) : Prop :=
  exists ext0 q,
    ext = ext0 ++ q :: after_stop q
    /\ stop_observed q = true
    /\ existsb stop_observed ext0 = false.

(* ===================================================================== *)
(** * The protocol of one cycle

    The entries one run of [sync] appends to the trace, and the value it
    returns, described as a relation; [sync_cycle] below shows that every
    run of the code follows it. *)
(* ===================================================================== *)

Section Protocol.

Variable rt : types.ResourceType.

(** The message an error of the sink is wrapped with in the event loop. *)
Definition event_message (evt : watch.Event) : string :=
  if String.eqb (watch.Type_ evt) watch.Added then "add event"
  else if String.eqb (watch.Type_ evt) watch.Modified then "modify event"
  else "delete event".

(** The sink call of a data event on an object with metadata [m], answered
    by [r]. *)
Definition event_io (evt : watch.Event) (m : Unstructured) (r : option error)
  : IO :=
  if String.eqb (watch.Type_ evt) watch.Added
     || String.eqb (watch.Type_ evt) watch.Modified
  then IOPutData (storage_path rt m) (VObject (watch.Object_ evt)) r
  else IOPatchData (storage_path rt m) "remove" VNil r.

(** What the switch does with one received event. *)
Inductive Handled (evt : watch.Event) : Trace -> Switched -> Prop :=
| H_no_identity (e : error) :
    data_event evt = true ->
    meta.Accessor (watch.Object_ evt) = Err e ->
    Handled evt [] (Returns (errOPA (errors.Wrap e (event_message evt))))
| H_applied (m : Unstructured) :
    data_event evt = true ->
    meta.Accessor (watch.Object_ evt) = Ok m ->
    Handled evt [event_io evt m None] FallsThrough
| H_rejected (m : Unstructured) (e : error) :
    data_event evt = true ->
    meta.Accessor (watch.Object_ evt) = Ok m ->
    Handled evt [event_io evt m (Some e)]
      (Returns (errOPA (errors.Wrap e (event_message evt))))
| H_error :
    data_event evt = false ->
    String.eqb (watch.Type_ evt) watch.Error = true ->
    Handled evt []
      (Returns
         (errKubernetes (fmt.Errorf "error event: %v" (watch.Object_ evt))))
| H_other :
    data_event evt = false ->
    String.eqb (watch.Type_ evt) watch.Error = false ->
    Handled evt [] (Returns errChannelClosed).

(** A run of the event loop. *)
Inductive Consumed : Trace -> option error -> Prop :=
| C_closed : Consumed [IOClosed] (Some errChannelClosed)
| C_quit : Consumed [IOQuit] None
| C_return (evt : watch.Event) (seg : Trace) (err : error) :
    Handled evt seg (Returns err) ->
    Consumed (IORecv evt :: seg) (Some err)
| C_next (evt : watch.Event) (seg ext : Trace) (r : option error) :
    Handled evt seg FallsThrough ->
    Consumed ext r ->
    Consumed (IORecv evt :: seg ++ ext) r.

Definition load_io (item : Unstructured) (r : option error) : IO :=
  IOPutData (storage_path rt item) (VObject (ObjUnstructured item)) r.

(** A run of the snapshot load. *)
Inductive Loaded : list Unstructured -> Trace -> option error -> Prop :=
| L_done : Loaded [] [] None
| L_next (item : Unstructured) (rest : list Unstructured) (ext : Trace)
    (r : option error) :
    Loaded rest ext r ->
    Loaded (item :: rest) (load_io item None :: ext) r
| L_rejected (item : Unstructured) (rest : list Unstructured) (e : error) :
    Loaded (item :: rest) [load_io item (Some e)]
      (Some (errOPA (errors.Wrap e "list add"))).

Definition reset_io (r : option error) : IO := IOPutData "/" VEmptyMap r.

(** A run of [sync]. *)
Inductive Cycle : Trace -> option error -> Prop :=
| Cy_list_failed (e : error) :
    Cycle [IOList (Err e)] (Some (errKubernetes (errors.Wrap e "list")))
| Cy_reset_failed (result : UnstructuredList) (e : error) :
    Cycle [IOList (Ok result); reset_io (Some e)]
      (Some (errOPA (errors.Wrap e "reset")))
| Cy_load_failed (result : UnstructuredList) (ext : Trace) (err : error) :
    Loaded (Items result) ext (Some err) ->
    Cycle (IOList (Ok result) :: reset_io None :: ext) (Some err)
| Cy_watch_failed (result : UnstructuredList) (ext : Trace) (e : error) :
    Loaded (Items result) ext None ->
    Cycle (IOList (Ok result) :: reset_io None :: ext
             ++ [IOWatch (GetResourceVersion result) (Some e)])
      (Some (errKubernetes (errors.Wrap e "watch")))
| Cy_watched (result : UnstructuredList) (ext evs : Trace)
    (r : option error) :
    Loaded (Items result) ext None ->
    Consumed evs r ->
    Cycle (IOList (Ok result) :: reset_io None :: ext
             ++ IOWatch (GetResourceVersion result) None :: evs ++ [IOStop])
      r.

(** A change event that names an object: Added, Modified or Deleted, on an
    object with identity metadata. *)
Definition names_object (evt : watch.Event) : bool :=
  data_event evt
  && match meta.Accessor (watch.Object_ evt) with
     | Ok _ => true
     | Err _ => false
     end.

(** The entries of an event that was received and applied. *)
Definition applied (evt : watch.Event) : Trace :=
  match meta.Accessor (watch.Object_ evt) with
  | Ok m => [IORecv evt; event_io evt m None]
  | Err _ => [IORecv evt]
  end.

End Protocol.

(* ===================================================================== *)
(** * Scenarios *)
(* ===================================================================== *)

Definition resource (namespaced : bool) (name : string) : GenericSync :=
  {| ns := {| types.Namespaced := namespaced;
              types.Group := EmptyString;
              types.Version := "v1";
              types.Resource := name |} |}.

Definition nodes : GenericSync := resource false "nodes".
Definition pods : GenericSync := resource true "pods".

Definition object (namespace name : string) : Unstructured :=
  {| Name := name; Namespace := namespace; Content := "{}" |}.

Definition event (type : watch.EventType) (obj : Object) : watch.Event :=
  {| watch.Type_ := type; watch.Object_ := obj |}.

(** A sink that accepts everything, and timers that always run out. *)
Definition quiet (list_ : Trace -> Result UnstructuredList)
    (watch_ : Trace -> string -> Result (list Select)) : Env :=
  {| List_ := list_;
     Watch_ := watch_;
     PutData_ := fun _ _ _ => None;
     PatchData_ := fun _ _ _ _ => None;
     Timer_ := fun _ _ => true |}.

(** The listing is [a] at ["v1"]; the watch yields Added [b], Deleted [a],
    then closes. *)
Definition env_scenario : Env :=
  quiet
    (fun _ => Ok {| Items := [object "default" "a"];
                    ResourceVersion := "v1" |})
    (fun _ _ =>
       Ok [SelEvent (event watch.Added
                       (ObjUnstructured (object "default" "b")));
           SelEvent (event watch.Deleted
                       (ObjUnstructured (object "default" "a")))]).

(** The listing fails, every time. *)
Definition env_list_fails : Env :=
  quiet (fun _ => Err (errorString "connection refused"))
        (fun _ _ => Ok []).

(** The watch yields an Added event whose object has no metadata. *)
Definition env_no_identity : Env :=
  quiet
    (fun _ => Ok {| Items := []; ResourceVersion := "v7" |})
    (fun _ _ => Ok [SelEvent (event watch.Added (ObjStatus "gone"))]).

(** The stop signal fires while the event loop waits for its first event. *)
Definition env_quit : Env :=
  quiet
    (fun _ => Ok {| Items := [object "default" "a"];
                    ResourceVersion := "v1" |})
    (fun _ _ => Ok [SelQuit]).

(** The sink rejects the reset, and the stop signal fires during the wait
    that follows. *)
Definition env_sink_down : Env :=
  {| List_ := fun _ => Ok {| Items := []; ResourceVersion := "v1" |};
     Watch_ := fun _ _ => Ok [];
     PutData_ := fun _ _ _ => Some (errorString "unavailable");
     PatchData_ := fun _ _ _ _ => None;
     Timer_ := fun _ _ => false |}.




(* ===================================================================== *)
(** * Further readings of a trace *)
(* ===================================================================== *)

(** The answers of the listing calls. *)
Definition listings (tr : Trace) : list (Result UnstructuredList) :=
  flat_map (fun e => match e with IOList r => [r] | _ => [] end) tr.

(** The deferred [w.Stop()]. *)
Definition is_stop (e : IO) : bool :=
  match e with
  | IOStop => true
  | _ => false
  end.

(** A call to [resource.Watch] that returned a watcher. *)
Definition is_open_watch (e : IO) : bool :=
  match e with
  | IOWatch _ None => true
  | _ => false
  end.

(** The answer of the sink to a call. *)
Definition answer (e : IO) : option error :=
  match e with
  | IOPutData _ _ r => r
  | IOPatchData _ _ _ r => r
  | _ => None
  end.

(** The separator of [syncAdd] and [syncRemove], as a character. *)
Definition slash : Ascii.ascii :=
  match "/" with
  | String c _ => c
  | EmptyString => Ascii.zero
  end.

Fixpoint has_slash (str : string) : bool :=
  match str with
  | EmptyString => false
  | String c rest => Ascii.eqb c slash || has_slash rest
  end.

(** Every watch is opened at the resource version of a listing that
    precedes it in the trace, with no other listing and no other watch in
    between.  [token] is the resource version of the last listing, as long
    as no watch has used it. *)
Fixpoint watches_fresh (token : option string) (tr : Trace) : bool :=
  match tr with
  | [] => true
  | IOList (Ok result) :: tr =>
      watches_fresh (Some (GetResourceVersion result)) tr
  | IOList (Err _) :: tr => watches_fresh None tr
  | IOWatch rv _ :: tr =>
      match token with
      | Some v => String.eqb rv v && watches_fresh None tr
      | None => false
      end
  | _ :: tr => watches_fresh token tr
  end.

(** ** The protocol of the retry loop

    A run of [loop], as a sequence of cycles: [Run rt n returned ext] says
    that [ext] is made of [n] cycles, each followed by what the type switch
    does with its result, and whether [loop] has returned at the end. *)
Inductive Run (rt : types.ResourceType) : nat -> bool -> Trace -> Prop :=
| R_running : Run rt 0 false []
| R_stopped (cyc : Trace) :
    Cycle rt cyc None ->
    Run rt 1 true cyc
| R_closed (cyc rest : Trace) (n : nat) (returned : bool) :
    Cycle rt cyc (Some errChannelClosed) ->
    Run rt n returned rest ->
    Run rt (S n) returned (cyc ++ rest)
| R_quit (cyc : Trace) (err : error) :
    Cycle rt cyc (Some err) ->
    err <> errChannelClosed ->
    Run rt 1 true (cyc ++ [IOTimer backoffMin false])
| R_waited (cyc rest : Trace) (err : error) (n : nat) (returned : bool) :
    Cycle rt cyc (Some err) ->
    err <> errChannelClosed ->
    Run rt n returned rest ->
    Run rt (S n) returned (cyc ++ IOTimer backoffMin true :: rest).

(** ** More scenarios *)

(** The watch yields an event of a type the switch does not know. *)
Definition env_bookmark : Env :=
  quiet
    (fun _ => Ok {| Items := []; ResourceVersion := "v1" |})
    (fun _ _ => Ok [SelEvent (event "BOOKMARK" ObjNil)]).

(** The watch yields an error event. *)
Definition env_error_event : Env :=
  quiet
    (fun _ => Ok {| Items := []; ResourceVersion := "v1" |})
    (fun _ _ => Ok [SelEvent (event watch.Error (ObjStatus "too old"))]).

(** The listing is [a], [b], [c]; the sink rejects whatever is put at
    [b]. *)
Definition env_load_rejects : Env :=
  {| List_ := fun _ =>
       Ok {| Items := [object "default" "a"; object "default" "b";
                       object "default" "c"];
             ResourceVersion := "v1" |};
     Watch_ := fun _ _ => Ok [];
     PutData_ := fun _ path _ =>
       if String.eqb path "b" then Some (errorString "full") else None;
     PatchData_ := fun _ _ _ _ => None;
     Timer_ := fun _ _ => true |}.

(* ===================================================================== *)
(** * Basic facts *)
(* ===================================================================== *)

Lemma bind_run {A B} (m : M A) (k : A -> M B) (tr : Trace) :
  bind m k tr = k (fst (m tr)) (snd (m tr)).
Proof. reflexivity. Qed.

Lemma sink_calls_app (a b : Trace) :
  sink_calls (a ++ b) = sink_calls a ++ sink_calls b.
Proof. apply flat_map_app. Qed.

Lemma received_app (a b : Trace) :
  received (a ++ b) = received a ++ received b.
Proof. apply flat_map_app. Qed.

Lemma waits_app (a b : Trace) : waits (a ++ b) = waits a ++ waits b.
Proof. apply flat_map_app. Qed.

Section Facts.

Variable env : Env.
Variable s : GenericSync.

(** ** The path computed by [syncAdd] and [syncRemove] *)

Lemma syncAdd_run (obj : Object) (tr : Trace) :
  syncAdd env s obj tr =
  match meta.Accessor obj with
  | Err err => (Some err, tr)
  | Ok m =>
      let path := storage_path (ns s) m in
      let r := PutData_ env tr path (VObject obj) in
      (r, tr ++ [IOPutData path (VObject obj) r])
  end.
Proof.
  unfold syncAdd, storage_path, GetName, GetNamespace.
  destruct (meta.Accessor obj) as [m|err]; [|reflexivity].
  destruct (types.Namespaced (ns s)); reflexivity.
Qed.

Lemma syncRemove_run (obj : Object) (tr : Trace) :
  syncRemove env s obj tr =
  match meta.Accessor obj with
  | Err err => (Some err, tr)
  | Ok m =>
      let path := storage_path (ns s) m in
      let r := PatchData_ env tr path "remove" VNil in
      (r, tr ++ [IOPatchData path "remove" VNil r])
  end.
Proof.
  unfold syncRemove, storage_path, GetName, GetNamespace.
  destruct (meta.Accessor obj) as [m|err]; [|reflexivity].
  destruct (types.Namespaced (ns s)); reflexivity.
Qed.

End Facts.

Section Runs.

Variable env : Env.
Variable s : GenericSync.

Ltac settle_handled c :=
  let HH := fresh "HH" in
  pose proof c as HH;
  unfold event_io, event_message, data_event in HH;
  repeat match goal with
         | E : String.eqb _ _ = _ |- _ => rewrite E in HH
         end;
  cbn in HH; apply HH; auto.

Lemma switch_event_handled (evt : watch.Event) (tr tr' : Trace)
    (out : Switched) :
  switch_event env s evt tr = (out, tr') ->
  exists seg, tr' = tr ++ seg /\ Handled (ns s) evt seg out.
Proof.
  unfold switch_event.
  destruct (String.eqb (watch.Type_ evt) watch.Added) eqn:Ea;
    [|destruct (String.eqb (watch.Type_ evt) watch.Modified) eqn:Em;
      [|destruct (String.eqb (watch.Type_ evt) watch.Deleted) eqn:Ed;
        [|destruct (String.eqb (watch.Type_ evt) watch.Error) eqn:Ee]]].
  1-3: rewrite bind_run; first [rewrite syncAdd_run | rewrite syncRemove_run];
    destruct (meta.Accessor (watch.Object_ evt)) as [m|e] eqn:Hacc; cbn;
    [ first [ destruct (PutData_ env tr _ _) as [e|]
            | destruct (PatchData_ env tr _ _ _) as [e|] ];
      cbn; intros H; injection H as <- <-; eexists; (split; [reflexivity|]);
      [ settle_handled (H_rejected (ns s) evt m e)
      | settle_handled (H_applied (ns s) evt m) ]
    | intros H; injection H as <- <-; exists [];
      rewrite app_nil_r; (split; [reflexivity|]);
      settle_handled (H_no_identity (ns s) evt e) ].
  - intros H; injection H as <- <-; exists [].
    rewrite app_nil_r; split; [reflexivity|].
    settle_handled (H_error (ns s) evt).
  - intros H; injection H as <- <-; exists [].
    rewrite app_nil_r; split; [reflexivity|].
    settle_handled (H_other (ns s) evt).
Qed.

Lemma closed_channel_run (tr : Trace) :
  closed_channel env s tr = (Some errChannelClosed, tr ++ [IOClosed]).
Proof. reflexivity. Qed.

Lemma event_loop_consumed (ch : list Select) :
  forall (tr tr' : Trace) (r : option error),
    event_loop env s ch tr = (r, tr') ->
    exists evs, tr' = tr ++ evs /\ Consumed (ns s) evs r.
Proof.
  induction ch as [|[evt|] ch IH]; intros tr tr' r H.
  - cbn [event_loop] in H. rewrite (closed_channel_run tr) in H.
    injection H as <- <-.
    eexists; split; [reflexivity|constructor].
  - cbn [event_loop] in H. rewrite !bind_run in H. cbn [emit fst snd] in H.
    destruct (switch_event env s evt (tr ++ [IORecv evt])) as [out tr1] eqn:Hsw.
    apply switch_event_handled in Hsw. destruct Hsw as (seg & -> & Hh).
    cbn [fst snd] in H. destruct out as [err|].
    + injection H as <- <-. exists (IORecv evt :: seg).
      rewrite <- app_assoc. split; [reflexivity|]. now constructor.
    + apply IH in H. destruct H as (evs & -> & Hc).
      exists (IORecv evt :: seg ++ evs).
      rewrite <- !app_assoc. split; [reflexivity|].
      now apply C_next.
  - cbn in H. injection H as <- <-.
    eexists; split; [reflexivity|constructor].
Qed.

Lemma load_loaded (items : list Unstructured) :
  forall (tr tr' : Trace) (r : option error),
    load env s items tr = (r, tr') ->
    exists ext, tr' = tr ++ ext /\ Loaded (ns s) items ext r.
Proof.
  induction items as [|item rest IH]; intros tr tr' r H.
  - injection H as <- <-. exists []. rewrite app_nil_r.
    split; [reflexivity|constructor].
  - cbn [load] in H. rewrite bind_run, syncAdd_run in H.
    cbn [meta.Accessor fst snd] in H.
    destruct (PutData_ env tr _ _) as [e|].
    + injection H as <- <-. eexists; split; [reflexivity|].
      apply L_rejected.
    + apply IH in H. destruct H as (ext & -> & Hl).
      eexists. rewrite <- app_assoc. split; [reflexivity|].
      cbn [app]. now apply L_next.
Qed.

(** Every run of [sync] follows the protocol, and opens with the listing. *)
Lemma sync_cycle (tr tr' : Trace) (r : option error) :
  sync env s tr = (r, tr') ->
  exists ext,
    tr' = tr ++ ext
    /\ Cycle (ns s) ext r
    /\ hd_error ext = Some (IOList (List_ env tr)).
Proof.
  unfold sync. rewrite bind_run.
  unfold resource_List at 1 2. rewrite !bind_run. cbn [ask emit ret fst snd].
  destruct (List_ env tr) as [result|e].
  2:{ intros H; injection H as <- <-.
      eexists; split; [reflexivity|]. split; [constructor|reflexivity]. }
  rewrite bind_run. unfold syncReset, opa_PutData at 1 2.
  rewrite !bind_run. cbn [ask emit ret fst snd].
  destruct (PutData_ env _ _ _) as [e|].
  { intros H; injection H as <- <-.
    eexists. rewrite <- app_assoc. split; [reflexivity|].
    split; [apply Cy_reset_failed|reflexivity]. }
  rewrite bind_run.
  destruct (load env s (Items result) _) as [lr tr1] eqn:Hload.
  apply load_loaded in Hload. destruct Hload as (ext & -> & Hl).
  cbn [fst snd]. destruct lr as [err|].
  { intros H; injection H as <- <-.
    eexists. rewrite <- !app_assoc. split; [reflexivity|].
    split; [now apply Cy_load_failed|reflexivity]. }
  rewrite bind_run. unfold resource_Watch at 1 2.
  rewrite !bind_run. cbn [ask emit ret fst snd].
  destruct (Watch_ env _ _) as [ch|e].
  2:{ intros H; injection H as <- <-.
      eexists. rewrite <- !app_assoc. split; [reflexivity|].
      split; [now apply Cy_watch_failed|reflexivity]. }
  rewrite !bind_run. cbn [emit ret fst snd].
  destruct (event_loop env s ch _) as [er tr2] eqn:Hev.
  apply event_loop_consumed in Hev. destruct Hev as (evs & -> & Hc).
  cbn [fst snd]. intros H; injection H as <- <-.
  eexists. rewrite <- !app_assoc. split; [reflexivity|].
  split; [cbn [app]; now apply Cy_watched|reflexivity].
Qed.

(** The entries a run of [sync] appends are determined by its final trace. *)
Lemma sync_cycle_of (tr ext : Trace) :
  snd (sync env s tr) = tr ++ ext ->
  Cycle (ns s) ext (fst (sync env s tr))
  /\ hd_error ext = Some (IOList (List_ env tr)).
Proof.
  intros H.
  destruct (sync_cycle tr (snd (sync env s tr)) (fst (sync env s tr)))
    as (ext' & Heq & Hc & Hhd).
  { apply surjective_pairing. }
  rewrite H in Heq. apply app_inv_head in Heq. subst ext'. now split.
Qed.

Lemma sync_extends (tr : Trace) :
  exists ext, snd (sync env s tr) = tr ++ ext.
Proof.
  destruct (sync_cycle tr (snd (sync env s tr)) (fst (sync env s tr)))
    as (ext & Heq & _).
  { apply surjective_pairing. }
  now exists ext.
Qed.

End Runs.

(** ** Runs against a sink that accepts every call

    No event is skipped: as long as the sink accepts, every event that names
    an object is received and applied, in order, until the channel closes. *)

Section Accepting.

Variable env : Env.
Variable s : GenericSync.

Hypothesis put_accepted : forall tr path v, PutData_ env tr path v = None.
Hypothesis patch_accepted :
  forall tr path op v, PatchData_ env tr path op v = None.

Lemma load_accepted (items : list Unstructured) :
  forall tr,
    load env s items tr
    = (None, tr ++ map (fun item => load_io (ns s) item None) items).
Proof.
  induction items as [|item rest IH]; intros tr.
  - cbn. now rewrite app_nil_r.
  - cbn [load map]. rewrite bind_run, syncAdd_run.
    cbn [meta.Accessor fst snd]. rewrite put_accepted, IH, <- app_assoc.
    reflexivity.
Qed.

Lemma switch_event_applied (evt : watch.Event) (m : Unstructured)
    (tr : Trace) :
  data_event evt = true ->
  meta.Accessor (watch.Object_ evt) = Ok m ->
  switch_event env s evt tr = (FallsThrough, tr ++ [event_io (ns s) evt m None]).
Proof.
  unfold data_event, switch_event, event_io. intros Hd Ha.
  destruct (String.eqb (watch.Type_ evt) watch.Added);
    [|destruct (String.eqb (watch.Type_ evt) watch.Modified);
      [|destruct (String.eqb (watch.Type_ evt) watch.Deleted);
        [|discriminate]]];
    rewrite bind_run; first [rewrite syncAdd_run | rewrite syncRemove_run];
    rewrite Ha; cbn; rewrite ?put_accepted, ?patch_accepted; reflexivity.
Qed.

Lemma event_loop_applies_all (evts : list watch.Event) :
  forallb names_object evts = true ->
  forall tr,
    event_loop env s (map SelEvent evts) tr
    = (Some errChannelClosed,
       tr ++ flat_map (applied (ns s)) evts ++ [IOClosed]).
Proof.
  induction evts as [|evt evts IH]; intros Hall tr.
  - reflexivity.
  - cbn [forallb] in Hall. apply andb_true_iff in Hall.
    destruct Hall as [Hevt Hall]. unfold names_object in Hevt.
    apply andb_true_iff in Hevt. destruct Hevt as [Hd Ha].
    destruct (meta.Accessor (watch.Object_ evt)) as [m|] eqn:Hacc;
      [|discriminate].
    assert (Happ :
      applied (ns s) evt = [IORecv evt; event_io (ns s) evt m None]).
    { unfold applied. now rewrite Hacc. }
    cbn [map event_loop flat_map]. rewrite Happ.
    rewrite !bind_run. cbn [emit fst snd].
    rewrite (switch_event_applied evt m _ Hd Hacc). cbn [fst snd].
    rewrite (IH Hall), <- !app_assoc. reflexivity.
Qed.

Lemma applied_calls (evts : list watch.Event) :
  forallb names_object evts = true ->
  sink_calls (flat_map (applied (ns s)) evts)
  = flat_map (event_call (ns s)) evts
  /\ received (flat_map (applied (ns s)) evts) = evts.
Proof.
  induction evts as [|evt evts IH]; intros Hall; [now split|].
  cbn [forallb] in Hall. apply andb_true_iff in Hall.
  destruct Hall as [Hevt Hall]. destruct (IH Hall) as [Hs Hr].
  unfold names_object in Hevt. apply andb_true_iff in Hevt.
  destruct Hevt as [Hd Ha].
  cbn [flat_map]. rewrite sink_calls_app, received_app, Hs, Hr.
  unfold applied, event_call, event_io, data_event in *.
  destruct (meta.Accessor (watch.Object_ evt)) as [m|]; [|discriminate].
  destruct (String.eqb (watch.Type_ evt) watch.Added
            || String.eqb (watch.Type_ evt) watch.Modified); cbn.
  - now split.
  - cbn in Hd. rewrite Hd. now split.
Qed.

(** A cycle against an accepting sink whose watch yields [evts] and then
    closes: every event is applied, and the cycle ends with the channel
    closed. *)
Lemma sync_applies_all (tr : Trace) (result : UnstructuredList)
    (evts : list watch.Event) :
  List_ env tr = Ok result ->
  (forall tr' rv, Watch_ env tr' rv = Ok (map SelEvent evts)) ->
  forallb names_object evts = true ->
  fst (sync env s tr) = Some errChannelClosed
  /\ received (snd (sync env s tr)) = received tr ++ evts
  /\ sink_calls (snd (sync env s tr))
     = sink_calls tr
         ++ reset
         :: map (fun item =>
                   upsert (storage_path (ns s) item) (ObjUnstructured item))
              (Items result)
         ++ flat_map (event_call (ns s)) evts.
Proof.
  intros Hlist Hwatch Hall.
  destruct (applied_calls evts Hall) as [Hs Hr].
  assert (Hrun :
    sync env s tr
    = (Some errChannelClosed,
       tr ++ IOList (Ok result) :: reset_io None
          :: map (fun item => load_io (ns s) item None) (Items result)
          ++ IOWatch (GetResourceVersion result) None
          :: flat_map (applied (ns s)) evts ++ [IOClosed; IOStop])).
  { unfold sync. rewrite bind_run.
    unfold resource_List. rewrite !bind_run. cbn [ask emit ret fst snd].
    rewrite Hlist. rewrite bind_run. unfold syncReset, opa_PutData.
    rewrite !bind_run. cbn [ask emit ret fst snd]. rewrite put_accepted.
    rewrite bind_run, load_accepted. cbn [fst snd].
    rewrite bind_run. unfold resource_Watch.
    rewrite !bind_run. cbn [ask emit ret fst snd]. rewrite Hwatch.
    rewrite !bind_run. cbn [emit ret fst snd].
    rewrite (event_loop_applies_all evts Hall). cbn [fst snd].
    rewrite <- !app_assoc. reflexivity. }
  rewrite Hrun. cbn [fst snd]. split; [reflexivity|].
  assert (Hload : forall items,
    received (map (fun item => load_io (ns s) item None) items) = []
    /\ sink_calls (map (fun item => load_io (ns s) item None) items)
       = map (fun item =>
                upsert (storage_path (ns s) item) (ObjUnstructured item))
           items).
  { induction items as [|item items [IHr IHs]]; [now split|].
    cbn. fold (received (map (fun item => load_io (ns s) item None) items)).
    fold (sink_calls (map (fun item => load_io (ns s) item None) items)).
    now rewrite IHr, IHs. }
  destruct (Hload (Items result)) as [Hlr Hls].
  change (IOList (Ok result) :: reset_io None
            :: map (fun item => load_io (ns s) item None) (Items result)
            ++ IOWatch (GetResourceVersion result) None
            :: flat_map (applied (ns s)) evts ++ [IOClosed; IOStop])
    with ([IOList (Ok result); reset_io None]
            ++ map (fun item => load_io (ns s) item None) (Items result)
            ++ [IOWatch (GetResourceVersion result) None]
            ++ flat_map (applied (ns s)) evts ++ [IOClosed; IOStop]).
  rewrite !received_app, !sink_calls_app, Hs, Hr, Hlr, Hls. cbn.
  rewrite !app_nil_r. now split.
Qed.

End Accepting.

(* ===================================================================== *)
(** * Consequences of the protocol *)
(* ===================================================================== *)

Section ProtocolFacts.

Variable rt : types.ResourceType.

Lemma event_io_is_sink (evt : watch.Event) (m : Unstructured)
    (r : option error) :
  is_sink (event_io rt evt m r) = true.
Proof. unfold event_io. now destruct (_ || _). Qed.

(** The sink call of a handled event is the one that corresponds to it. *)
Lemma Handled_calls (evt : watch.Event) (seg : Trace) (out : Switched) :
  Handled rt evt seg out ->
  sink_calls seg = event_call rt evt /\ received seg = [].
Proof.
  destruct 1 as [e Hd Ha|m Hd Ha|m e Hd Ha|Hd He|Hd He];
    unfold event_call, data_event, event_io in *; rewrite ?Ha.
  - now split.
  - destruct (String.eqb (watch.Type_ evt) watch.Added
              || String.eqb (watch.Type_ evt) watch.Modified); cbn.
    + now split.
    + cbn in Hd. rewrite Hd. now split.
  - destruct (String.eqb (watch.Type_ evt) watch.Added
              || String.eqb (watch.Type_ evt) watch.Modified); cbn.
    + now split.
    + cbn in Hd. rewrite Hd. now split.
  - apply orb_false_iff in Hd. destruct Hd as [-> ->].
    destruct (meta.Accessor _); now split.
  - apply orb_false_iff in Hd. destruct Hd as [-> ->].
    destruct (meta.Accessor _); now split.
Qed.

Lemma Consumed_calls (evs : Trace) (r : option error) :
  Consumed rt evs r ->
  sink_calls evs = flat_map (event_call rt) (received evs).
Proof.
  induction 1 as [| |evt seg err Hh|evt seg ext r Hh Hc IH]; try reflexivity.
  - apply Handled_calls in Hh. destruct Hh as [Hs Hr].
    cbn. fold (sink_calls seg) (received seg).
    rewrite Hs, Hr. cbn. now rewrite app_nil_r.
  - apply Handled_calls in Hh. destruct Hh as [Hs Hr].
    cbn. fold (sink_calls (seg ++ ext)) (received (seg ++ ext)).
    rewrite sink_calls_app, received_app, Hs, Hr, IH. reflexivity.
Qed.

Lemma Loaded_calls (items : list Unstructured) (ext : Trace) :
  Loaded rt items ext None ->
  sink_calls ext
  = map (fun item => upsert (storage_path rt item) (ObjUnstructured item))
      items
  /\ received ext = []
  /\ existsb sink_rejected ext = false.
Proof.
  remember None as r eqn:Hr. induction 1 as [|item rest ext r Hl IH|];
    try discriminate.
  - now repeat split.
  - destruct (IH Hr) as (Hs & Hrecv & Hrej). cbn.
    fold (sink_calls ext) (received ext). now rewrite Hs, Hrecv, Hrej.
Qed.

(** *** What kind of entries each phase appends *)

Lemma Loaded_sink (items : list Unstructured) (ext : Trace)
    (r : option error) :
  Loaded rt items ext r -> forallb is_sink ext = true.
Proof. induction 1; cbn; auto. Qed.

Lemma Handled_sink (evt : watch.Event) (seg : Trace) (out : Switched) :
  Handled rt evt seg out -> forallb is_sink seg = true.
Proof. destruct 1; cbn; rewrite ?event_io_is_sink; reflexivity. Qed.

Lemma sink_is_loop_io (l : Trace) :
  forallb is_sink l = true -> forallb is_loop_io l = true.
Proof.
  induction l as [|e l IH]; cbn; [reflexivity|].
  intros H. apply andb_true_iff in H. destruct H as [He Hl].
  rewrite (IH Hl). now destruct e.
Qed.

Lemma Consumed_loop_io (evs : Trace) (r : option error) :
  Consumed rt evs r -> forallb is_loop_io evs = true.
Proof.
  induction 1 as [| |evt seg err Hh|evt seg ext r Hh Hc IH]; cbn; auto.
  - apply sink_is_loop_io. eapply Handled_sink; eassumption.
  - rewrite forallb_app, IH, andb_true_r.
    apply sink_is_loop_io. eapply Handled_sink; eassumption.
Qed.

Lemma sink_no_stop (l : Trace) :
  forallb is_sink l = true -> existsb stop_observed l = false.
Proof.
  induction l as [|e l IH]; cbn; [reflexivity|].
  intros H. apply andb_true_iff in H. destruct H as [He Hl].
  rewrite (IH Hl). now destruct e.
Qed.

Lemma sink_not_recv (l : Trace) (evt : watch.Event) :
  forallb is_sink l = true -> ~ In (IORecv evt) l.
Proof.
  intros H Hin. rewrite forallb_forall in H. apply H in Hin. discriminate.
Qed.

Lemma loop_io_not_watch (l : Trace) (rv : string) (a : option error) :
  forallb is_loop_io l = true -> ~ In (IOWatch rv a) l.
Proof.
  intros H Hin. rewrite forallb_forall in H. apply H in Hin. discriminate.
Qed.

(** *** Where the stop signal shows *)

Lemma Consumed_stop (evs : Trace) (r : option error) :
  Consumed rt evs r ->
  match r with
  | None =>
      exists evs0, evs = evs0 ++ [IOQuit] /\ existsb stop_observed evs0 = false
  | Some _ => existsb stop_observed evs = false
  end.
Proof.
  induction 1 as [| |evt seg err Hh|evt seg ext r Hh Hc IH].
  - reflexivity.
  - now exists [].
  - cbn. apply sink_no_stop. eapply Handled_sink; eassumption.
  - apply Handled_sink, sink_no_stop in Hh. destruct r as [err|].
    + cbn. now rewrite existsb_app, Hh, IH.
    + destruct IH as (evs0 & -> & Hno).
      exists (IORecv evt :: seg ++ evs0). split.
      * cbn. now rewrite <- app_assoc.
      * cbn. now rewrite existsb_app, Hh, Hno.
Qed.

Lemma Cycle_stop (ext : Trace) (r : option error) :
  Cycle rt ext r ->
  match r with
  | None =>
      exists ext0,
        ext = ext0 ++ [IOQuit; IOStop] /\ existsb stop_observed ext0 = false
  | Some _ => existsb stop_observed ext = false
  end.
Proof.
  destruct 1 as [e|result e|result ext err Hl|result ext e Hl
                 |result ext evs r Hl Hc].
  - reflexivity.
  - reflexivity.
  - cbn. apply sink_no_stop. eapply Loaded_sink; eassumption.
  - cbn. rewrite existsb_app. cbn.
    apply Loaded_sink, sink_no_stop in Hl. now rewrite Hl.
  - apply Loaded_sink, sink_no_stop in Hl. apply Consumed_stop in Hc.
    destruct r as [err|].
    + cbn. rewrite existsb_app. cbn. rewrite existsb_app. cbn.
      now rewrite Hl, Hc.
    + destruct Hc as (evs0 & -> & Hno).
      exists (IOList (Ok result) :: reset_io None :: ext
                ++ IOWatch (GetResourceVersion result) None :: evs0).
      split.
      * cbn. rewrite <- !app_assoc. reflexivity.
      * cbn. rewrite existsb_app. cbn. now rewrite Hl, Hno.
Qed.

(** *** Where the watch shows *)

Lemma Cycle_watch (ext : Trace) (r : option error) (rv : string)
    (a : option error) :
  Cycle rt ext r ->
  In (IOWatch rv a) ext ->
  exists result loaded tail,
    ext = IOList (Ok result) :: reset_io None :: loaded
            ++ IOWatch rv a :: tail
    /\ rv = GetResourceVersion result
    /\ Loaded rt (Items result) loaded None
    /\ match a with
       | Some e => tail = []
       | None => exists evs, tail = evs ++ [IOStop] /\ Consumed rt evs r
       end.
Proof.
  destruct 1 as [e|result e|result ext err Hl|result ext e Hl
                 |result ext evs r Hl Hc]; intros Hin.
  - destruct Hin as [Hin|[]]. discriminate.
  - destruct Hin as [Hin|[Hin|[]]]; discriminate.
  - destruct Hin as [Hin|[Hin|Hin]]; try discriminate.
    apply Loaded_sink, sink_is_loop_io in Hl.
    now apply loop_io_not_watch in Hin.
  - destruct Hin as [Hin|[Hin|Hin]]; try discriminate.
    apply in_app_or in Hin. destruct Hin as [Hin|[Hin|[]]].
    + apply Loaded_sink, sink_is_loop_io in Hl.
      now apply loop_io_not_watch in Hin.
    + injection Hin as <- <-. now exists result, ext, [].
  - destruct Hin as [Hin|[Hin|Hin]]; try discriminate.
    apply in_app_or in Hin. destruct Hin as [Hin|[Hin|Hin]].
    + apply Loaded_sink, sink_is_loop_io in Hl.
      now apply loop_io_not_watch in Hin.
    + injection Hin as <- <-. exists result, ext, (evs ++ [IOStop]).
      repeat split; auto. now exists evs.
    + apply in_app_or in Hin. destruct Hin as [Hin|[Hin|[]]].
      * apply Consumed_loop_io in Hc. now apply loop_io_not_watch in Hin.
      * discriminate.
Qed.

(** *** What a rejected sink call leads to *)

Lemma event_io_rejected (evt : watch.Event) (m : Unstructured)
    (r : option error) :
  sink_rejected (event_io rt evt m r)
  = match r with Some _ => true | None => false end.
Proof. unfold event_io. destruct (_ || _), r; reflexivity. Qed.

Lemma Handled_rejected (evt : watch.Event) (seg : Trace) (out : Switched) :
  Handled rt evt seg out ->
  existsb sink_rejected seg = true ->
  exists e msg, out = Returns (errOPA (errors.Wrap e msg)).
Proof.
  destruct 1 as [e Hd Ha|m Hd Ha|m e Hd Ha|Hd He|Hd He]; cbn;
    rewrite ?event_io_rejected; try discriminate.
  intros _. now exists e, (event_message evt).
Qed.

Lemma Consumed_rejected (evs : Trace) (r : option error) :
  Consumed rt evs r ->
  existsb sink_rejected evs = true ->
  exists e msg, r = Some (errOPA (errors.Wrap e msg)).
Proof.
  induction 1 as [| |evt seg err Hh|evt seg ext r Hh Hc IH]; cbn;
    try discriminate.
  - intros H. destruct (Handled_rejected _ _ _ Hh H) as (e & msg & Heq).
    injection Heq as ->. now exists e, msg.
  - rewrite existsb_app. intros H. apply orb_true_iff in H.
    destruct H as [H|H]; [|now apply IH].
    destruct (Handled_rejected _ _ _ Hh H) as (e & msg & Heq).
    discriminate.
Qed.

Lemma Loaded_rejected (items : list Unstructured) (ext : Trace)
    (r : option error) :
  Loaded rt items ext r ->
  existsb sink_rejected ext = true ->
  exists e msg, r = Some (errOPA (errors.Wrap e msg)).
Proof.
  induction 1 as [|item rest ext r Hl IH|item rest e]; cbn;
    try discriminate; auto.
  intros _. now exists e, "list add".
Qed.

Lemma Cycle_rejected (ext : Trace) (r : option error) :
  Cycle rt ext r ->
  existsb sink_rejected ext = true ->
  exists e msg, r = Some (errOPA (errors.Wrap e msg)).
Proof.
  destruct 1 as [e|result e|result ext err Hl|result ext e Hl
                 |result ext evs r Hl Hc]; cbn; try discriminate.
  - intros _. now exists e, "reset".
  - intros H. eapply Loaded_rejected; eassumption.
  - rewrite existsb_app. cbn. rewrite orb_false_r.
    intros H. apply Loaded_calls in Hl. destruct Hl as (_ & _ & Hl).
    congruence.
  - rewrite existsb_app. cbn. rewrite existsb_app. cbn.
    rewrite orb_false_r. intros H. apply orb_true_iff in H.
    destruct H as [H|H]; [|now apply (Consumed_rejected evs)].
    apply Loaded_calls in Hl. destruct Hl as (_ & _ & Hl). congruence.
Qed.

(** *** What an event without identity leads to *)

Lemma Consumed_no_identity (evs : Trace) (r : option error)
    (evt : watch.Event) (e : error) :
  Consumed rt evs r ->
  In (IORecv evt) evs ->
  data_event evt = true ->
  meta.Accessor (watch.Object_ evt) = Err e ->
  r = Some (errOPA (errors.Wrap e (event_message evt)))
  /\ exists evs0, evs = evs0 ++ [IORecv evt].
Proof.
  intros Hc Hin Hd Ha.
  induction Hc as [| |evt0 seg err Hh|evt0 seg ext r Hh Hc IH].
  - destruct Hin as [Hin|[]]. discriminate.
  - destruct Hin as [Hin|[]]. discriminate.
  - destruct Hin as [Hin|Hin].
    + injection Hin as ->.
      inversion Hh as [e' Hd' Ha'|m Hd' Ha'|m e' Hd' Ha'|Hd' He'|Hd' He'];
        subst; try congruence.
      split; [congruence|]. now exists [].
    + apply Handled_sink in Hh. now apply sink_not_recv in Hin.
  - destruct Hin as [Hin|Hin].
    + injection Hin as ->.
      inversion Hh as [e' Hd' Ha'|m Hd' Ha'|m e' Hd' Ha'|Hd' He'|Hd' He'];
        subst; congruence.
    + apply in_app_or in Hin. destruct Hin as [Hin|Hin].
      * apply Handled_sink in Hh. now apply sink_not_recv in Hin.
      * destruct (IH Hin) as (-> & evs0 & ->). split; [reflexivity|].
        exists (IORecv evt0 :: seg ++ evs0). cbn. now rewrite <- app_assoc.
Qed.

Lemma Cycle_no_identity (ext : Trace) (r : option error)
    (evt : watch.Event) (e : error) :
  Cycle rt ext r ->
  In (IORecv evt) ext ->
  data_event evt = true ->
  meta.Accessor (watch.Object_ evt) = Err e ->
  r = Some (errOPA (errors.Wrap e (event_message evt)))
  /\ exists ext0, ext = ext0 ++ [IORecv evt; IOStop].
Proof.
  intros Hc Hin Hd Ha.
  destruct Hc as [e0|result e0|result ext err Hl|result ext e0 Hl
                  |result ext evs r Hl Hc].
  - destruct Hin as [Hin|[]]. discriminate.
  - destruct Hin as [Hin|[Hin|[]]]; discriminate.
  - destruct Hin as [Hin|[Hin|Hin]]; try discriminate.
    apply Loaded_sink in Hl. now apply sink_not_recv in Hin.
  - destruct Hin as [Hin|[Hin|Hin]]; try discriminate.
    apply in_app_or in Hin. destruct Hin as [Hin|[Hin|[]]].
    + apply Loaded_sink in Hl. now apply sink_not_recv in Hin.
    + discriminate.
  - destruct Hin as [Hin|[Hin|Hin]]; try discriminate.
    apply in_app_or in Hin. destruct Hin as [Hin|[Hin|Hin]].
    + apply Loaded_sink in Hl. now apply sink_not_recv in Hin.
    + discriminate.
    + apply in_app_or in Hin. destruct Hin as [Hin|[Hin|[]]].
      * destruct (Consumed_no_identity _ _ _ _ Hc Hin Hd Ha)
          as (-> & evs0 & ->).
        split; [reflexivity|].
        exists (IOList (Ok result) :: reset_io None :: ext
                  ++ IOWatch (GetResourceVersion result) None :: evs0).
        cbn. rewrite <- !app_assoc. reflexivity.
      * discriminate.
Qed.

(** *** What an event of an unrecognized type leads to *)

Lemma Consumed_unrecognized (evs : Trace) (r : option error)
    (evt : watch.Event) :
  Consumed rt evs r ->
  In (IORecv evt) evs ->
  data_event evt = false ->
  String.eqb (watch.Type_ evt) watch.Error = false ->
  r = Some errChannelClosed.
Proof.
  intros Hc Hin Hd He.
  induction Hc as [| |evt0 seg err Hh|evt0 seg ext r Hh Hc IH].
  - destruct Hin as [Hin|[]]. discriminate.
  - destruct Hin as [Hin|[]]. discriminate.
  - destruct Hin as [Hin|Hin].
    + injection Hin as ->.
      inversion Hh as [e' Hd' Ha'|m Hd' Ha'|m e' Hd' Ha'|Hd' He'|Hd' He'];
        subst; congruence.
    + apply Handled_sink in Hh. now apply sink_not_recv in Hin.
  - destruct Hin as [Hin|Hin].
    + injection Hin as ->.
      inversion Hh as [e' Hd' Ha'|m Hd' Ha'|m e' Hd' Ha'|Hd' He'|Hd' He'];
        subst; congruence.
    + apply in_app_or in Hin. destruct Hin as [Hin|Hin].
      * apply Handled_sink in Hh. now apply sink_not_recv in Hin.
      * now apply IH.
Qed.

Lemma Cycle_unrecognized (ext : Trace) (r : option error)
    (evt : watch.Event) :
  Cycle rt ext r ->
  In (IORecv evt) ext ->
  data_event evt = false ->
  String.eqb (watch.Type_ evt) watch.Error = false ->
  r = Some errChannelClosed.
Proof.
  intros Hc Hin Hd He.
  destruct Hc as [e0|result e0|result ext err Hl|result ext e0 Hl
                  |result ext evs r Hl Hc].
  - destruct Hin as [Hin|[]]. discriminate.
  - destruct Hin as [Hin|[Hin|[]]]; discriminate.
  - destruct Hin as [Hin|[Hin|Hin]]; try discriminate.
    apply Loaded_sink in Hl. now apply sink_not_recv in Hin.
  - destruct Hin as [Hin|[Hin|Hin]]; try discriminate.
    apply in_app_or in Hin. destruct Hin as [Hin|[Hin|[]]].
    + apply Loaded_sink in Hl. now apply sink_not_recv in Hin.
    + discriminate.
  - destruct Hin as [Hin|[Hin|Hin]]; try discriminate.
    apply in_app_or in Hin. destruct Hin as [Hin|[Hin|Hin]].
    + apply Loaded_sink in Hl. now apply sink_not_recv in Hin.
    + discriminate.
    + apply in_app_or in Hin. destruct Hin as [Hin|[Hin|[]]].
      * eapply Consumed_unrecognized; eassumption.
      * discriminate.
Qed.

End ProtocolFacts.

(* ===================================================================== *)
(** * The retry loop *)
(* ===================================================================== *)

(** ** The type switch *)

(** Every value produced by [errors.Wrap] or [fmt.Errorf] implements the
    interface [errOPA], which is tried before [errKubernetes]. *)
Lemma typeSwitch_wrapped (e : error) (msg : string) :
  typeSwitch (errors.Wrap e msg) = case_errOPA.
Proof. reflexivity. Qed.

Lemma typeSwitch_errChannelClosed :
  typeSwitch errChannelClosed = case_errChannelClosed.
Proof. reflexivity. Qed.

Lemma typeSwitch_cases (err : error) :
  typeSwitch err
  = match err with
    | errChannelClosed => case_errChannelClosed
    | _ => case_errOPA
    end.
Proof. now destruct err. Qed.

(** The backoff of the Kubernetes case, on the nanosecond scale. *)
Lemma grow_spec (delay : Duration) :
  0 <= delay <= backoffMax ->
  grow delay = Z.min (2 * delay) backoffMax.
Proof.
  intros H. unfold grow, wrap64, backoffMax, time.Second, time.Nanosecond in *.
  rewrite Z.mod_small by lia.
  destruct (Z.gtb_spec (delay * 2 + 2 ^ 63 - 2 ^ 63) (1000000000 * 1 * 30));
    lia.
Qed.

Lemma grow_bounds (delay : Duration) :
  backoffMin <= delay <= backoffMax ->
  backoffMin <= grow delay <= backoffMax.
Proof.
  intros H. rewrite grow_spec.
  - unfold backoffMin, backoffMax, time.Second, time.Nanosecond in *. lia.
  - unfold backoffMin, backoffMax, time.Second, time.Nanosecond in *. lia.
Qed.

Section Loop.

Variable env : Env.
Variable s : GenericSync.

Lemma timer_or_quit_run (delay : Duration) (tr : Trace) :
  timer_or_quit env delay tr
  = (Timer_ env tr delay, tr ++ [IOTimer delay (Timer_ env tr delay)]).
Proof. reflexivity. Qed.

Lemma on_errOPA_run (delay : Duration) (tr : Trace) :
  on_errOPA env delay tr
  = (if Timer_ env tr backoffMin then Next backoffMin else Return_,
     tr ++ [IOTimer backoffMin (Timer_ env tr backoffMin)]).
Proof.
  unfold on_errOPA. rewrite bind_run, timer_or_quit_run. cbn [fst snd].
  now destruct (Timer_ env tr backoffMin).
Qed.

Lemma on_errKubernetes_run (delay : Duration) (tr : Trace) :
  on_errKubernetes env delay tr
  = (if Timer_ env tr (grow delay) then Next (grow delay) else Return_,
     tr ++ [IOTimer (grow delay) (Timer_ env tr (grow delay))]).
Proof.
  unfold on_errKubernetes. rewrite bind_run, timer_or_quit_run.
  cbn [fst snd]. now destruct (Timer_ env tr (grow delay)).
Qed.

Lemma loop_body_run (delay : Duration) (tr : Trace) :
  loop_body env s delay tr
  = match fst (sync env s tr) with
    | None => (Return_, snd (sync env s tr))
    | Some errChannelClosed => (Next backoffMin, snd (sync env s tr))
    | Some _ => on_errOPA env delay (snd (sync env s tr))
    end.
Proof.
  unfold loop_body. rewrite bind_run.
  destruct (fst (sync env s tr)) as [[| | |]|]; reflexivity.
Qed.

Lemma loop_from_run (fuel : nat) (delay : Duration) (tr : Trace) :
  loop_from env s (S fuel) delay tr
  = match fst (loop_body env s delay tr) with
    | Return_ => (true, snd (loop_body env s delay tr))
    | Next delay' =>
        loop_from env s fuel delay' (snd (loop_body env s delay tr))
    end.
Proof.
  cbn [loop_from]. rewrite bind_run.
  now destruct (fst (loop_body env s delay tr)).
Qed.

(** ** Where a run of the loop shows the stop signal *)

Lemma after_stop_idle (q : IO) :
  forallb idle (after_stop q) = true
  /\ existsb stop_observed (after_stop q) = false.
Proof. now destruct q. Qed.

Lemma stopped_app (a ext : Trace) :
  existsb stop_observed a = false -> stopped ext -> stopped (a ++ ext).
Proof.
  intros Ha (ext0 & q & -> & Hq & H0).
  exists (a ++ ext0), q. rewrite <- app_assoc.
  repeat split; auto. now rewrite existsb_app, Ha, H0.
Qed.

Lemma loop_body_stop (delay : Duration) (tr : Trace) :
  exists ext,
    snd (loop_body env s delay tr) = tr ++ ext
    /\ match fst (loop_body env s delay tr) with
       | Return_ => stopped ext
       | Next _ => existsb stop_observed ext = false
       end.
Proof.
  rewrite loop_body_run.
  destruct (sync_extends env s tr) as (ext & Hext).
  destruct (sync_cycle_of env s tr ext Hext) as (Hc & _).
  apply Cycle_stop in Hc. rewrite Hext.
  destruct (fst (sync env s tr)) as [err|].
  - assert (Hopa :
      exists ext',
        snd (on_errOPA env delay (tr ++ ext)) = tr ++ ext'
        /\ match fst (on_errOPA env delay (tr ++ ext)) with
           | Return_ => stopped ext'
           | Next _ => existsb stop_observed ext' = false
           end).
    { rewrite on_errOPA_run. cbn [fst snd].
      exists (ext ++ [IOTimer backoffMin (Timer_ env (tr ++ ext) backoffMin)]).
      rewrite app_assoc. split; [reflexivity|].
      destruct (Timer_ env (tr ++ ext) backoffMin).
      - rewrite existsb_app, Hc. reflexivity.
      - exists ext, (IOTimer backoffMin false). now repeat split. }
    destruct err; auto.
    exists ext. now split.
  - destruct Hc as (ext0 & -> & H0). exists (ext0 ++ [IOQuit; IOStop]).
    split; [reflexivity|]. exists ext0, IOQuit. now repeat split.
Qed.

Lemma loop_from_stop (fuel : nat) :
  forall (delay : Duration) (tr : Trace),
  exists ext,
    snd (loop_from env s fuel delay tr) = tr ++ ext
    /\ if fst (loop_from env s fuel delay tr)
       then stopped ext
       else existsb stop_observed ext = false.
Proof.
  induction fuel as [|fuel IH]; intros delay tr.
  - exists []. cbn. now rewrite app_nil_r.
  - rewrite loop_from_run.
    destruct (loop_body_stop delay tr) as (ext1 & Hext1 & H1).
    destruct (fst (loop_body env s delay tr)) as [|delay'].
    + exists ext1. now split.
    + rewrite Hext1.
      destruct (IH delay' (tr ++ ext1)) as (ext2 & Hext2 & H2).
      exists (ext1 ++ ext2). rewrite app_assoc. split; [assumption|].
      destruct (fst (loop_from env s fuel delay' (tr ++ ext1))).
      * now apply stopped_app.
      * now rewrite existsb_app, H1, H2.
Qed.

End Loop.

Lemma stop_split_unique (pre post ext0 tail : Trace) (q q' : IO) :
  pre ++ q :: post = ext0 ++ q' :: tail ->
  stop_observed q = true ->
  stop_observed q' = true ->
  existsb stop_observed ext0 = false ->
  existsb stop_observed tail = false ->
  pre = ext0 /\ q = q' /\ post = tail.
Proof.
  revert ext0. induction pre as [|p pre IH]; intros [|x ext0] H Hq Hq' H0 Ht.
  - injection H as -> ->. now repeat split.
  - injection H as -> _. cbn in H0. now rewrite Hq in H0.
  - injection H as -> H. rewrite <- H, existsb_app in Ht. cbn in Ht.
    rewrite Hq, orb_true_r in Ht. discriminate.
  - injection H as -> H. cbn in H0. apply orb_false_iff in H0.
    destruct H0 as [_ H0].
    destruct (IH ext0 H Hq Hq' H0 Ht) as (-> & -> & ->). now repeat split.
Qed.

(* ===================================================================== *)
(** * Path mapping *)
(* ===================================================================== *)

(** C6.  For every object with identity metadata, [syncAdd] puts it at, and
    [syncRemove] removes, one and the same path: namespace, slash, name if
    the resource type is namespaced, the name alone if it is not. *)
Theorem path_of_object (env : Env) (s : GenericSync) (obj : Object)
    (m : Unstructured) (tr : Trace) :
  meta.Accessor obj = Ok m ->
  let path :=
    if types.Namespaced (ns s)
    then (Namespace m ++ "/" ++ Name m)%string
    else Name m in
  snd (syncAdd env s obj tr)
  = tr ++ [IOPutData path (VObject obj) (fst (syncAdd env s obj tr))]
  /\ snd (syncRemove env s obj tr)
     = tr ++ [IOPatchData path "remove" VNil (fst (syncRemove env s obj tr))].
Proof.
  intros Ha. rewrite syncAdd_run, syncRemove_run, Ha. unfold storage_path.
  now split.
Qed.

Lemma path_of_object_witness :
  sink_calls
    (snd (syncAdd env_scenario pods (ObjUnstructured (object "bar" "foo")) []))
  = [upsert "bar/foo" (ObjUnstructured (object "bar" "foo"))]
  /\ sink_calls
       (snd (syncRemove env_scenario pods
               (ObjUnstructured (object "bar" "foo")) []))
     = [remove "bar/foo"]
  /\ sink_calls
       (snd (syncAdd env_scenario nodes
               (ObjUnstructured (object "bar" "foo")) []))
     = [upsert "foo" (ObjUnstructured (object "bar" "foo"))]
  /\ sink_calls
       (snd (syncRemove env_scenario nodes
               (ObjUnstructured (object "bar" "foo")) []))
     = [remove "foo"].
Proof.
  destruct (path_of_object env_scenario pods
              (ObjUnstructured (object "bar" "foo")) (object "bar" "foo") []
              eq_refl) as [Ha Hr].
  destruct (path_of_object env_scenario nodes
              (ObjUnstructured (object "bar" "foo")) (object "bar" "foo") []
              eq_refl) as [Ha' Hr'].
  rewrite Ha, Hr, Ha', Hr'. repeat split.
Defined.

(** C10.  For a namespaced resource type and an object whose namespace is
    the empty string, [syncAdd] and [syncRemove] use the path made of a
    slash followed by the name. *)
Theorem path_of_empty_namespace (env : Env) (s : GenericSync) (obj : Object)
    (m : Unstructured) (tr : Trace) :
  meta.Accessor obj = Ok m ->
  types.Namespaced (ns s) = true ->
  Namespace m = EmptyString ->
  snd (syncAdd env s obj tr)
  = tr ++ [IOPutData ("/" ++ Name m)%string (VObject obj)
             (fst (syncAdd env s obj tr))]
  /\ snd (syncRemove env s obj tr)
     = tr ++ [IOPatchData ("/" ++ Name m)%string "remove" VNil
                (fst (syncRemove env s obj tr))].
Proof.
  intros Ha Hn He. rewrite syncAdd_run, syncRemove_run, Ha.
  unfold storage_path. rewrite Hn, He. now split.
Qed.

Lemma path_of_empty_namespace_witness :
  sink_calls
    (snd (syncAdd env_scenario pods
            (ObjUnstructured (object EmptyString "foo")) []))
  = [upsert "/foo" (ObjUnstructured (object EmptyString "foo"))]
  /\ sink_calls
       (snd (syncRemove env_scenario pods
               (ObjUnstructured (object EmptyString "foo")) []))
     = [remove "/foo"].
Proof.
  destruct (path_of_empty_namespace env_scenario pods
              (ObjUnstructured (object EmptyString "foo"))
              (object EmptyString "foo") [] eq_refl eq_refl eq_refl)
    as [Ha Hr].
  rewrite Ha, Hr. split; reflexivity.
Defined.

(* ===================================================================== *)
(** * The reconciliation cycle *)
(* ===================================================================== *)

(** C8.  In every cycle, a watch is opened only at the resource version of
    the list that the listing call of that same cycle returned. *)
Theorem watch_at_listed_version (env : Env) (s : GenericSync)
    (tr ext : Trace) (rv : string) (a : option error) :
  snd (sync env s tr) = tr ++ ext ->
  In (IOWatch rv a) ext ->
  exists result rest,
    List_ env tr = Ok result
    /\ ext = IOList (Ok result) :: rest
    /\ rv = GetResourceVersion result.
Proof.
  intros Hext Hin.
  destruct (sync_cycle_of env s tr ext Hext) as (Hc & Hhd).
  destruct (Cycle_watch _ _ _ _ _ Hc Hin)
    as (result & loaded & tail & -> & -> & _).
  cbn in Hhd. injection Hhd as Hlist.
  exists result. eexists. repeat split. now symmetry.
Qed.

Lemma watch_at_listed_version_witness :
  exists result rest,
    List_ env_scenario [] = Ok result
    /\ snd (sync env_scenario nodes []) = IOList (Ok result) :: rest
    /\ "v1" = GetResourceVersion result.
Proof.
  apply (watch_at_listed_version env_scenario nodes []
           (snd (sync env_scenario nodes [])) "v1" None eq_refl).
  vm_compute. do 3 right. left. reflexivity.
Defined.

(* ===================================================================== *)
(** * Failures and the retry policy *)
(* ===================================================================== *)

Section Policy.

Variable env : Env.
Variable s : GenericSync.

Lemma loop_body_listing (delay : Duration) (tr : Trace) :
  exists rest,
    snd (loop_body env s delay tr) = tr ++ IOList (List_ env tr) :: rest.
Proof.
  rewrite loop_body_run.
  destruct (sync_extends env s tr) as (ext & Hext).
  destruct (sync_cycle_of env s tr ext Hext) as (_ & Hhd).
  destruct ext as [|e ext]; [discriminate|]. injection Hhd as ->.
  rewrite Hext.
  destruct (fst (sync env s tr)) as [[| | |]|]; rewrite ?on_errOPA_run;
    cbn [fst snd]; rewrite <- ?app_assoc; cbn [app]; eexists; reflexivity.
Qed.

Lemma loop_from_listing (fuel : nat) (delay : Duration) (tr : Trace) :
  exists rest,
    snd (loop_from env s (S fuel) delay tr)
    = tr ++ IOList (List_ env tr) :: rest.
Proof.
  rewrite loop_from_run.
  destruct (loop_body_listing delay tr) as (rest & Hrest).
  destruct (fst (loop_body env s delay tr)) as [|delay'].
  - now exists rest.
  - rewrite Hrest.
    destruct (loop_from_stop env s fuel delay'
                (tr ++ IOList (List_ env tr) :: rest)) as (ext & -> & _).
    rewrite <- app_assoc. cbn [app]. eexists; reflexivity.
Qed.

(** A cycle in which the sink rejected a call is taken by the [errOPA]
    case. *)
Lemma loop_body_rejected (delay : Duration) (tr ext : Trace) :
  snd (sync env s tr) = tr ++ ext ->
  (exists e msg, fst (sync env s tr) = Some (errOPA (errors.Wrap e msg))) ->
  loop_body env s delay tr
  = (if Timer_ env (tr ++ ext) backoffMin then Next backoffMin else Return_,
     tr ++ ext ++ [IOTimer backoffMin (Timer_ env (tr ++ ext) backoffMin)]).
Proof.
  intros Hext (e & msg & Hr).
  rewrite loop_body_run, Hr, Hext, on_errOPA_run, app_assoc. reflexivity.
Qed.

End Policy.

(** C4.  For every cycle in which the sink rejected a call, whatever the
    delay accumulated so far, the retry loop sets the delay to the minimum,
    one second, and waits exactly that long; it then restarts with that
    delay, unless the stop signal ended the wait, in which case the loop
    returns at once. *)
Theorem sink_failure_waits_minimum (env : Env) (s : GenericSync)
    (delay : Duration) (tr ext : Trace) :
  snd (sync env s tr) = tr ++ ext ->
  existsb sink_rejected ext = true ->
  let fired := Timer_ env (tr ++ ext) backoffMin in
  outcome (fst (sync env s tr)) = Some SinkFailure
  /\ backoffMin = 1 * time.Second
  /\ snd (loop_body env s delay tr) = tr ++ ext ++ [IOTimer backoffMin fired]
  /\ fst (loop_body env s delay tr)
     = (if fired then Next backoffMin else Return_)
  /\ forall fuel,
       loop_from env s (S fuel) delay tr
       = if fired
         then loop_from env s fuel backoffMin
                (tr ++ ext ++ [IOTimer backoffMin true])
         else (true, tr ++ ext ++ [IOTimer backoffMin false]).
Proof.
  intros Hext Hrej fired.
  destruct (sync_cycle_of env s tr ext Hext) as (Hc & _).
  pose proof (Cycle_rejected _ _ _ Hc Hrej) as Hr.
  pose proof (loop_body_rejected env s delay tr ext Hext Hr) as Hbody.
  destruct Hr as (e & msg & Hr).
  split; [now rewrite Hr|]. split; [reflexivity|].
  split; [now rewrite Hbody|]. split; [now rewrite Hbody|].
  intros fuel. rewrite loop_from_run, Hbody. cbn [fst snd].
  fold fired. now destruct fired.
Qed.

Lemma sink_failure_waits_minimum_witness :
  loop_from env_sink_down nodes 5 (8 * time.Second) []
  = (true,
     [IOList (Ok {| Items := []; ResourceVersion := "v1" |});
      IOPutData "/" VEmptyMap (Some (errorString "unavailable"));
      IOTimer (1 * time.Second) false]).
Proof.
  destruct (sink_failure_waits_minimum env_sink_down nodes (8 * time.Second)
              [] (snd (sync env_sink_down nodes [])) eq_refl eq_refl)
    as (_ & _ & _ & _ & H).
  rewrite (H 4%nat). reflexivity.
Defined.

(** C5.  For every cycle that ends with the channel closed, the retry loop
    resets the delay to the minimum and starts the next cycle at once: the
    next entry of the trace is the next listing, with no wait before it. *)
Theorem channel_closed_restarts_at_once (env : Env) (s : GenericSync)
    (delay : Duration) (tr : Trace) :
  fst (sync env s tr) = Some errChannelClosed ->
  outcome (fst (sync env s tr)) = Some ChannelClosed
  /\ loop_body env s delay tr = (Next backoffMin, snd (sync env s tr))
  /\ forall fuel,
       loop_from env s (S fuel) delay tr
       = loop_from env s fuel backoffMin (snd (sync env s tr))
       /\ exists rest,
            snd (loop_from env s (S (S fuel)) delay tr)
            = snd (sync env s tr)
                ++ IOList (List_ env (snd (sync env s tr))) :: rest.
Proof.
  intros Hr.
  assert (Hbody :
    loop_body env s delay tr = (Next backoffMin, snd (sync env s tr))).
  { now rewrite loop_body_run, Hr. }
  split; [now rewrite Hr|]. split; [assumption|].
  intros fuel.
  assert (Hnext : forall n,
    loop_from env s (S n) delay tr
    = loop_from env s n backoffMin (snd (sync env s tr))).
  { intros n. now rewrite loop_from_run, Hbody. }
  split; [apply Hnext|]. rewrite Hnext. apply loop_from_listing.
Qed.

Lemma channel_closed_restarts_at_once_witness :
  fst (sync env_scenario nodes []) = Some errChannelClosed
  /\ loop_body env_scenario nodes (8 * time.Second) []
     = (Next backoffMin, snd (sync env_scenario nodes [])).
Proof.
  split; [reflexivity|].
  apply (channel_closed_restarts_at_once env_scenario nodes
           (8 * time.Second) [] eq_refl).
Defined.

(** C9.  For every Added, Modified or Deleted event whose object has no
    identity metadata, the accessor's error ends the cycle, wrapped as an
    [errOPA], without any call to the sink for that event; the retry loop
    then takes the [errOPA] case: delay at the minimum, one wait of that
    length, no growth.  A listed item always has identity metadata. *)
Theorem no_identity_is_sink_failure (env : Env) (s : GenericSync)
    (delay : Duration) (tr ext : Trace) (evt : watch.Event) (e : error) :
  snd (sync env s tr) = tr ++ ext ->
  In (IORecv evt) ext ->
  data_event evt = true ->
  meta.Accessor (watch.Object_ evt) = Err e ->
  let fired := Timer_ env (tr ++ ext) backoffMin in
  fst (sync env s tr) = Some (errOPA (errors.Wrap e (event_message evt)))
  /\ outcome (fst (sync env s tr)) = Some SinkFailure
  /\ (exists ext0, ext = ext0 ++ [IORecv evt; IOStop])
  /\ loop_body env s delay tr
     = (if fired then Next backoffMin else Return_,
        tr ++ ext ++ [IOTimer backoffMin fired])
  /\ forall item, meta.Accessor (ObjUnstructured item) = Ok item.
Proof.
  intros Hext Hin Hd Ha fired.
  destruct (sync_cycle_of env s tr ext Hext) as (Hc & _).
  destruct (Cycle_no_identity _ _ _ _ _ Hc Hin Hd Ha) as (Hr & Hlast).
  split; [assumption|]. split; [now rewrite Hr|]. split; [assumption|].
  split; [|reflexivity].
  apply loop_body_rejected; [assumption|].
  now exists e, (event_message evt).
Qed.

Lemma no_identity_is_sink_failure_witness :
  fst (sync env_no_identity pods [])
  = Some (errOPA (errors.Wrap meta.errNotObject "add event"))
  /\ waits (snd (loop_body env_no_identity pods (8 * time.Second) []))
     = [1 * time.Second].
Proof.
  destruct (no_identity_is_sink_failure env_no_identity pods
              (8 * time.Second) [] (snd (sync env_no_identity pods []))
              (event watch.Added (ObjStatus "gone")) meta.errNotObject
              eq_refl)
    as (Hr & _ & _ & Hbody & _).
  - vm_compute. do 3 right. left. reflexivity.
  - reflexivity.
  - reflexivity.
  - split; [exact Hr|]. rewrite Hbody. reflexivity.
Defined.

(* ===================================================================== *)
(** * The stop signal *)
(* ===================================================================== *)

(** C7.  In every run of the worker, once a select has picked the stop
    signal, in the event loop or during a backoff wait, the loop returns
    and nothing that follows in the trace is a call to the source or to the
    sink (only the deferred [w.Stop()] when the signal was picked in the
    event loop); and a cycle whose event loop observed the stop signal
    returns [nil], the graceful stop. *)
Theorem stop_is_prompt (env : Env) (s : GenericSync) (fuel : nat)
    (tr pre post : Trace) (q : IO) :
  stop_observed q = true ->
  snd (loop env s fuel tr) = tr ++ pre ++ q :: post ->
  fst (loop env s fuel tr) = true
  /\ post = after_stop q
  /\ forallb idle post = true
  /\ forall tr0 ext,
       snd (sync env s tr0) = tr0 ++ ext ->
       In IOQuit ext ->
       fst (sync env s tr0) = None
       /\ outcome (fst (sync env s tr0)) = Some GracefulStop
       /\ exists ext0, ext = ext0 ++ [IOQuit; IOStop].
Proof.
  intros Hq Hrun. unfold loop in *.
  destruct (loop_from_stop env s fuel backoffMin tr) as (ext & Hext & Hs).
  rewrite Hext in Hrun. apply app_inv_head in Hrun. subst ext.
  assert (Hcycle : forall tr0 ext,
    snd (sync env s tr0) = tr0 ++ ext ->
    In IOQuit ext ->
    fst (sync env s tr0) = None
    /\ outcome (fst (sync env s tr0)) = Some GracefulStop
    /\ exists ext0, ext = ext0 ++ [IOQuit; IOStop]).
  { intros tr0 ext Hext0 Hin.
    destruct (sync_cycle_of env s tr0 ext Hext0) as (Hc & _).
    apply Cycle_stop in Hc.
    destruct (fst (sync env s tr0)) as [err|].
    - assert (Hex : existsb stop_observed ext = true).
      { apply existsb_exists. now exists IOQuit. }
      congruence.
    - destruct Hc as (ext0 & -> & _). repeat split. now exists ext0. }
  destruct (fst (loop_from env s fuel backoffMin tr)).
  - destruct Hs as (ext0 & q' & Heq & Hq' & H0).
    destruct (after_stop_idle q') as (Hi & Ht).
    destruct (stop_split_unique _ _ _ _ _ _ Heq Hq Hq' H0 Ht)
      as (-> & -> & ->).
    split; [reflexivity|]. split; [reflexivity|]. now split.
  - rewrite existsb_app in Hs. cbn in Hs. rewrite Hq, orb_true_r in Hs.
    discriminate.
Qed.

Lemma stop_is_prompt_witness :
  loop env_quit nodes 3 []
  = (true,
     [IOList (Ok {| Items := [object "default" "a"];
                    ResourceVersion := "v1" |});
      IOPutData "/" VEmptyMap None;
      IOPutData "a" (VObject (ObjUnstructured (object "default" "a"))) None;
      IOWatch "v1" None;
      IOQuit;
      IOStop])
  /\ fst (loop env_quit nodes 3 []) = true.
Proof.
  split; [reflexivity|].
  apply (stop_is_prompt env_quit nodes 3 []
           [IOList (Ok {| Items := [object "default" "a"];
                          ResourceVersion := "v1" |});
            IOPutData "/" VEmptyMap None;
            IOPutData "a" (VObject (ObjUnstructured (object "default" "a")))
              None;
            IOWatch "v1" None]
           [IOStop] IOQuit eq_refl eq_refl).
Defined.

(* ===================================================================== *)
(** * Backoff *)
(* ===================================================================== *)

(** C3 fails on the code.  A failed listing makes [sync] return
    [errKubernetes(errors.Wrap(err, "list"))], whose dynamic type is the one
    [errors.Wrap] produces.  As [errOPA] and [errKubernetes] are both
    interface types with the method set of [error], the type switch of
    [loop] takes the [errOPA] case, which comes first: the cycle is handled
    as a failure of the sink, the loop waits the minimum three times in a
    row, and no cycle is ever handled as a failure of the source. *)
Theorem source_failure_taken_as_sink_failure :
  fst (sync env_list_fails nodes [])
  = Some (errKubernetes (errors.Wrap (errorString "connection refused") "list"))
  /\ outcome (fst (sync env_list_fails nodes [])) = Some SinkFailure
  /\ waits (snd (loop env_list_fails nodes 3 []))
     = [backoffMin; backoffMin; backoffMin]
  /\ forall r, outcome r <> Some SourceFailure.
Proof.
  repeat split.
  intros [err|]; cbn; [|discriminate].
  rewrite typeSwitch_cases. destruct err; discriminate.
Qed.

(* ===================================================================== *)
(** * Further properties of the cycle *)
(* ===================================================================== *)

Lemma split_unique (p : IO -> bool) (pre post l0 tail : Trace) (q q' : IO) :
  pre ++ q :: post = l0 ++ q' :: tail ->
  p q = true ->
  p q' = true ->
  existsb p l0 = false ->
  existsb p tail = false ->
  pre = l0 /\ q = q' /\ post = tail.
Proof.
  revert l0. induction pre as [|x pre IH]; intros [|y l0] H Hq Hq' H0 Ht.
  - injection H as -> ->. now repeat split.
  - injection H as -> _. cbn in H0. now rewrite Hq in H0.
  - injection H as -> H. rewrite <- H, existsb_app in Ht. cbn in Ht.
    rewrite Hq, orb_true_r in Ht. discriminate.
  - injection H as -> H. cbn in H0. apply orb_false_iff in H0.
    destruct H0 as [_ H0].
    destruct (IH l0 H Hq Hq' H0 Ht) as (-> & -> & ->). now repeat split.
Qed.

(** Entries of the event loop are neither listings, nor watches, nor
    timers, nor stops. *)
Lemma loop_io_plain (l : Trace) :
  forallb is_loop_io l = true ->
  listings l = []
  /\ waits l = []
  /\ existsb is_stop l = false
  /\ existsb is_open_watch l = false
  /\ forallb (fun e => negb (is_source e)) l = true.
Proof.
  induction l as [|e l IH]; cbn; [now repeat split|].
  intros H. apply andb_true_iff in H. destruct H as [He Hl].
  destruct (IH Hl) as (H1 & H2 & H3 & H4 & H5).
  fold (listings l) (waits l). rewrite H1, H2, H3, H4, H5.
  now destruct e.
Qed.

Lemma sink_plain (l : Trace) :
  forallb is_sink l = true ->
  listings l = []
  /\ waits l = []
  /\ existsb is_stop l = false
  /\ existsb is_open_watch l = false
  /\ forallb (fun e => negb (is_source e)) l = true.
Proof. intros H. now apply loop_io_plain, sink_is_loop_io. Qed.

Section CycleShape.

Variable rt : types.ResourceType.

Lemma Loaded_prefix (items : list Unstructured) (ext : Trace)
    (r : option error) :
  Loaded rt items ext r ->
  exists k,
    sink_calls ext
    = firstn k
        (map (fun item => upsert (storage_path rt item) (ObjUnstructured item))
           items)
    /\ received ext = [].
Proof.
  induction 1 as [|item rest ext r Hl IH|item rest e].
  - now exists 0%nat.
  - destruct IH as (k & Hs & Hr). exists (S k). cbn.
    fold (sink_calls ext) (received ext). now rewrite Hs, Hr.
  - now exists 1%nat.
Qed.

Lemma firstn_In_list {A} (k : nat) (l : list A) (x : A) :
  In x (firstn k l) -> In x l.
Proof.
  revert l. induction k as [|k IH]; intros [|y l]; cbn; try tauto.
  intros [H|H]; [now left|right; now apply IH].
Qed.

Lemma upsert_not_reset (items : list Unstructured) :
  ~ In reset
      (map (fun item => upsert (storage_path rt item) (ObjUnstructured item))
         items).
Proof.
  intros H. apply in_map_iff in H. destruct H as (item & H & _).
  discriminate.
Qed.

Lemma event_call_not_reset (evts : list watch.Event) :
  ~ In reset (flat_map (event_call rt) evts).
Proof.
  intros H. apply in_flat_map in H. destruct H as (evt & _ & H).
  unfold event_call in H.
  destruct (meta.Accessor (watch.Object_ evt)) as [m|]; [|destruct H].
  destruct (_ || _).
  - destruct H as [H|[]]. discriminate.
  - destruct (String.eqb _ _); [|destruct H].
    destruct H as [H|[]]. discriminate.
Qed.

(** The calls a cycle makes to the sink, whatever its outcome. *)
Lemma Cycle_calls (ext : Trace) (r : option error) :
  Cycle rt ext r ->
  match hd_error ext with
  | Some (IOList (Ok result)) =>
      exists k,
        sink_calls ext
        = reset
          :: firstn k
               (map (fun item =>
                       upsert (storage_path rt item) (ObjUnstructured item))
                  (Items result))
          ++ flat_map (event_call rt) (received ext)
        /\ (existsb is_open_watch ext = false ->
            received ext = [] /\ r <> None)
  | Some (IOList (Err e)) => ext = [IOList (Err e)]
  | _ => False
  end.
Proof.
  destruct 1 as [e|result e|result ext err Hl|result ext e Hl
                 |result ext evs r Hl Hc]; cbn [hd_error].
  - reflexivity.
  - exists 0%nat. split; [reflexivity|]. intros _. split; [reflexivity|].
    discriminate.
  - destruct (Loaded_prefix _ _ _ Hl) as (k & Hs & Hr). exists k.
    cbn. fold (sink_calls ext) (received ext). rewrite Hs, Hr, app_nil_r.
    split; [reflexivity|]. intros _. split; [reflexivity|discriminate].
  - destruct (Loaded_prefix _ _ _ Hl) as (k & Hs & Hr). exists k.
    cbn. fold (sink_calls (ext ++ [IOWatch (GetResourceVersion result) (Some e)])).
    fold (received (ext ++ [IOWatch (GetResourceVersion result) (Some e)])).
    rewrite sink_calls_app, received_app, Hs, Hr. cbn. rewrite app_nil_r.
    split; [reflexivity|]. intros _. split; [reflexivity|discriminate].
  - destruct (Loaded_prefix _ _ _ Hl) as (k & Hs & Hr). exists k.
    apply Consumed_calls in Hc. split.
    + change (IOList (Ok result) :: reset_io None :: ext
                ++ IOWatch (GetResourceVersion result) None :: evs ++ [IOStop])
        with ([IOList (Ok result); reset_io None]
                ++ ext ++ [IOWatch (GetResourceVersion result) None]
                ++ evs ++ [IOStop]).
      rewrite !sink_calls_app, !received_app, Hs, Hr, Hc. cbn.
      now rewrite !app_nil_r.
    + cbn. rewrite existsb_app. cbn. rewrite orb_true_r. discriminate.
Qed.

(** Where the deferred [w.Stop()] shows. *)
Lemma Cycle_released (ext : Trace) (r : option error) :
  Cycle rt ext r ->
  if existsb is_open_watch ext
  then exists ext0, ext = ext0 ++ [IOStop] /\ existsb is_stop ext0 = false
  else existsb is_stop ext = false.
Proof.
  destruct 1 as [e|result e|result ext err Hl|result ext e Hl
                 |result ext evs r Hl Hc].
  - reflexivity.
  - reflexivity.
  - apply Loaded_sink, sink_plain in Hl. destruct Hl as (_ & _ & Hs & Hw & _).
    cbn. now rewrite Hw, Hs.
  - apply Loaded_sink, sink_plain in Hl. destruct Hl as (_ & _ & Hs & Hw & _).
    cbn. rewrite !existsb_app. cbn. now rewrite Hw, Hs.
  - apply Loaded_sink, sink_plain in Hl. destruct Hl as (_ & _ & Hs & Hw & _).
    apply Consumed_loop_io, loop_io_plain in Hc.
    destruct Hc as (_ & _ & Hs' & Hw' & _).
    cbn. rewrite existsb_app. cbn. rewrite orb_true_r.
    exists (IOList (Ok result) :: reset_io None :: ext
              ++ IOWatch (GetResourceVersion result) None :: evs).
    split.
    + cbn. rewrite <- !app_assoc. reflexivity.
    + cbn. rewrite existsb_app. cbn. now rewrite Hs, Hs'.
Qed.

End CycleShape.

(** X1.  The watcher is released on every path: a cycle that opened a watch
    ends with the deferred [w.Stop()], called once, as its last action; a
    cycle that opened none never calls it. *)
Theorem watch_released (env : Env) (s : GenericSync) (tr ext : Trace) :
  snd (sync env s tr) = tr ++ ext ->
  if existsb is_open_watch ext
  then exists ext0, ext = ext0 ++ [IOStop] /\ existsb is_stop ext0 = false
  else existsb is_stop ext = false.
Proof.
  intros Hext. destruct (sync_cycle_of env s tr ext Hext) as (Hc & _).
  now apply Cycle_released in Hc.
Qed.

Lemma watch_released_witness :
  exists ext0,
    snd (sync env_no_identity pods []) = ext0 ++ [IOStop]
    /\ existsb is_stop ext0 = false.
Proof.
  exact (watch_released env_no_identity pods []
           (snd (sync env_no_identity pods [])) eq_refl).
Defined.

(** X2.  A cycle whose listing succeeded but which opened no watch has
    failed, has received no event, and has left the sink with the reset
    followed by upserts of an initial segment of the listing, in listing
    order: nothing else was written. *)
Theorem partial_load (env : Env) (s : GenericSync) (tr ext : Trace)
    (result : UnstructuredList) :
  snd (sync env s tr) = tr ++ ext ->
  List_ env tr = Ok result ->
  existsb is_open_watch ext = false ->
  fst (sync env s tr) <> None
  /\ received ext = []
  /\ exists k,
       sink_calls ext
       = reset
         :: firstn k
              (map (fun item =>
                      upsert (storage_path (ns s) item) (ObjUnstructured item))
                 (Items result)).
Proof.
  intros Hext Hlist Hw.
  destruct (sync_cycle_of env s tr ext Hext) as (Hc & Hhd).
  apply Cycle_calls in Hc. rewrite Hhd, Hlist in Hc.
  destruct Hc as (k & Hs & Hno). destruct (Hno Hw) as (Hr & Hnil).
  rewrite Hr in Hs. cbn in Hs. rewrite app_nil_r in Hs.
  split; [assumption|]. split; [assumption|]. now exists k.
Qed.

Lemma partial_load_witness :
  sink_calls (snd (sync env_load_rejects nodes []))
  = [reset;
     upsert "a" (ObjUnstructured (object "default" "a"));
     upsert "b" (ObjUnstructured (object "default" "b"))]
  /\ fst (sync env_load_rejects nodes []) <> None.
Proof.
  destruct (partial_load env_load_rejects nodes []
              (snd (sync env_load_rejects nodes []))
              {| Items := [object "default" "a"; object "default" "b";
                           object "default" "c"];
                 ResourceVersion := "v1" |}
              eq_refl eq_refl eq_refl) as (Hr & _ & _).
  split; [reflexivity|exact Hr].
Defined.

(** X3.  A failed listing leaves the sink untouched: the cycle consists of
    the listing call alone.  After a successful listing the first call to
    the sink is the reset, and the cycle resets the sink only that once. *)
Theorem reset_once_and_first (env : Env) (s : GenericSync) (tr ext : Trace) :
  snd (sync env s tr) = tr ++ ext ->
  match List_ env tr with
  | Err e => ext = [IOList (Err e)]
  | Ok _ => exists rest, sink_calls ext = reset :: rest /\ ~ In reset rest
  end.
Proof.
  intros Hext.
  destruct (sync_cycle_of env s tr ext Hext) as (Hc & Hhd).
  apply Cycle_calls in Hc. rewrite Hhd in Hc.
  destruct (List_ env tr) as [result|e]; [|assumption].
  destruct Hc as (k & Hs & _). eexists. split; [exact Hs|].
  intros Hin. apply in_app_or in Hin. destruct Hin as [Hin|Hin].
  - apply firstn_In_list in Hin. now apply upsert_not_reset in Hin.
  - now apply event_call_not_reset in Hin.
Qed.

Lemma reset_once_and_first_witness :
  snd (sync env_list_fails nodes [])
  = [IOList (Err (errorString "connection refused"))].
Proof.
  exact (reset_once_and_first env_list_fails nodes []
           (snd (sync env_list_fails nodes [])) eq_refl).
Defined.

Section Returning.

Variable rt : types.ResourceType.

Lemma event_io_answer (evt : watch.Event) (m : Unstructured)
    (r : option error) :
  answer (event_io rt evt m r) = r.
Proof. unfold event_io. now destruct (_ || _). Qed.

(** A rejected call is the last entry of its phase, and its error is the
    cause of the error returned. *)
Lemma Loaded_rejected_last (items : list Unstructured) (ext : Trace)
    (r : option error) :
  Loaded rt items ext r ->
  existsb sink_rejected ext = true ->
  exists l0 q cause,
    ext = l0 ++ [q]
    /\ sink_rejected q = true
    /\ existsb sink_rejected l0 = false
    /\ answer q = Some cause
    /\ r = Some (errOPA (errors.Wrap cause "list add")).
Proof.
  induction 1 as [|item rest ext r Hl IH|item rest e]; cbn;
    try discriminate.
  - intros H. destruct (IH H) as (l0 & q & cause & -> & Hq & H0 & Ha & Hr).
    exists (load_io rt item None :: l0), q, cause. now repeat split.
  - intros _. exists [], (load_io rt item (Some e)), e. now repeat split.
Qed.

Lemma Consumed_rejected_last (evs : Trace) (r : option error) :
  Consumed rt evs r ->
  existsb sink_rejected evs = true ->
  exists l0 q cause msg,
    evs = l0 ++ [q]
    /\ sink_rejected q = true
    /\ existsb sink_rejected l0 = false
    /\ answer q = Some cause
    /\ r = Some (errOPA (errors.Wrap cause msg)).
Proof.
  induction 1 as [| |evt seg err Hh|evt seg ext r Hh Hc IH]; cbn;
    try discriminate.
  - inversion Hh as [e' Hd' Ha'|m Hd' Ha'|m e' Hd' Ha'|Hd' He'|Hd' He'];
      subst; cbn; rewrite ?event_io_rejected; try discriminate.
    intros _. exists [IORecv evt], (event_io rt evt m (Some e')), e',
      (event_message evt).
    rewrite event_io_rejected, event_io_answer. now repeat split.
  - rewrite existsb_app. intros H.
    inversion Hh as [e' Hd' Ha'|m Hd' Ha'|m e' Hd' Ha'|Hd' He'|Hd' He'];
      subst.
    cbn in H. rewrite event_io_rejected in H. cbn in H.
    destruct (IH H) as (l0 & q & cause & msg & -> & Hq & H0 & Ha & Hr).
    exists (IORecv evt :: event_io rt evt m None :: l0), q, cause, msg.
    repeat split; auto. cbn. now rewrite event_io_rejected.
Qed.

Lemma Cycle_rejected_last (ext : Trace) (r : option error) :
  Cycle rt ext r ->
  existsb sink_rejected ext = true ->
  exists l0 q tail cause msg,
    ext = l0 ++ q :: tail
    /\ sink_rejected q = true
    /\ existsb sink_rejected l0 = false
    /\ (tail = [] \/ tail = [IOStop])
    /\ answer q = Some cause
    /\ r = Some (errOPA (errors.Wrap cause msg)).
Proof.
  destruct 1 as [e|result e|result ext err Hl|result ext e Hl
                 |result ext evs r Hl Hc]; cbn; try discriminate.
  - intros _. exists [IOList (Ok result)], (reset_io (Some e)), [], e, "reset".
    repeat split; auto.
  - intros H.
    destruct (Loaded_rejected_last _ _ _ Hl H)
      as (l0 & q & cause & -> & Hq & H0 & Ha & Hr).
    exists (IOList (Ok result) :: reset_io None :: l0), q, [], cause,
      "list add".
    repeat split; auto.
  - rewrite existsb_app. cbn. rewrite orb_false_r. intros H.
    apply Loaded_calls in Hl. destruct Hl as (_ & _ & Hl). congruence.
  - rewrite existsb_app. cbn. rewrite existsb_app. cbn.
    rewrite orb_false_r. intros H.
    pose proof (Loaded_calls _ _ _ Hl) as (_ & _ & Hno).
    rewrite Hno in H. cbn in H.
    destruct (Consumed_rejected_last _ _ Hc H)
      as (l0 & q & cause & msg & -> & Hq & H0 & Ha & Hr).
    exists (IOList (Ok result) :: reset_io None :: ext
              ++ IOWatch (GetResourceVersion result) None :: l0),
      q, [IOStop], cause, msg.
    repeat split; auto.
    + cbn. rewrite <- !app_assoc. reflexivity.
    + cbn. rewrite existsb_app. cbn. now rewrite Hno, H0.
Qed.

(** A received event on which the switch cannot fall through is the last
    one received: the switch returns, and so does the cycle. *)
Lemma Consumed_returning (evs : Trace) (r : option error)
    (evt : watch.Event) :
  Consumed rt evs r ->
  In (IORecv evt) evs ->
  (forall seg, ~ Handled rt evt seg FallsThrough) ->
  exists evs0 seg err,
    evs = evs0 ++ IORecv evt :: seg
    /\ Handled rt evt seg (Returns err)
    /\ r = Some err.
Proof.
  intros Hc Hin Hno.
  induction Hc as [| |evt0 seg err Hh|evt0 seg ext r Hh Hc IH].
  - destruct Hin as [Hin|[]]. discriminate.
  - destruct Hin as [Hin|[]]. discriminate.
  - destruct Hin as [Hin|Hin].
    + injection Hin as ->. now exists [], seg, err.
    + apply Handled_sink in Hh. now apply sink_not_recv in Hin.
  - destruct Hin as [Hin|Hin].
    + injection Hin as ->. now apply Hno in Hh.
    + apply in_app_or in Hin. destruct Hin as [Hin|Hin].
      * apply Handled_sink in Hh. now apply sink_not_recv in Hin.
      * destruct (IH Hin) as (evs0 & seg' & err & -> & Hh' & ->).
        exists (IORecv evt0 :: seg ++ evs0), seg', err.
        repeat split; auto. cbn. now rewrite <- app_assoc.
Qed.

Lemma Cycle_returning (ext : Trace) (r : option error) (evt : watch.Event) :
  Cycle rt ext r ->
  In (IORecv evt) ext ->
  (forall seg, ~ Handled rt evt seg FallsThrough) ->
  exists ext0 seg err,
    ext = ext0 ++ IORecv evt :: seg ++ [IOStop]
    /\ Handled rt evt seg (Returns err)
    /\ r = Some err.
Proof.
  intros Hc Hin Hno.
  destruct Hc as [e0|result e0|result ext err Hl|result ext e0 Hl
                  |result ext evs r Hl Hc].
  - destruct Hin as [Hin|[]]. discriminate.
  - destruct Hin as [Hin|[Hin|[]]]; discriminate.
  - destruct Hin as [Hin|[Hin|Hin]]; try discriminate.
    apply Loaded_sink in Hl. now apply sink_not_recv in Hin.
  - destruct Hin as [Hin|[Hin|Hin]]; try discriminate.
    apply in_app_or in Hin. destruct Hin as [Hin|[Hin|[]]].
    + apply Loaded_sink in Hl. now apply sink_not_recv in Hin.
    + discriminate.
  - destruct Hin as [Hin|[Hin|Hin]]; try discriminate.
    apply in_app_or in Hin. destruct Hin as [Hin|[Hin|Hin]].
    + apply Loaded_sink in Hl. now apply sink_not_recv in Hin.
    + discriminate.
    + apply in_app_or in Hin. destruct Hin as [Hin|[Hin|[]]].
      * destruct (Consumed_returning _ _ _ Hc Hin Hno)
          as (evs0 & seg & err & -> & Hh & ->).
        exists (IOList (Ok result) :: reset_io None :: ext
                  ++ IOWatch (GetResourceVersion result) None :: evs0),
          seg, err.
        repeat split; auto. cbn. rewrite <- !app_assoc. reflexivity.
      * discriminate.
Qed.

End Returning.

(** X4.  A call the sink rejects is the last thing a cycle asks of anyone:
    no call before it in the cycle was rejected, nothing follows it but the
    deferred [w.Stop()], and the error the cycle returns wraps the very
    error the sink answered with. *)
Theorem sink_rejection_is_final (env : Env) (s : GenericSync)
    (tr pre post : Trace) (q : IO) :
  snd (sync env s tr) = tr ++ pre ++ q :: post ->
  sink_rejected q = true ->
  existsb sink_rejected pre = false
  /\ (post = [] \/ post = [IOStop])
  /\ exists cause msg,
       answer q = Some cause
       /\ fst (sync env s tr) = Some (errOPA (errors.Wrap cause msg)).
Proof.
  intros Hext Hq.
  destruct (sync_cycle_of env s tr _ Hext) as (Hc & _).
  assert (Hrej : existsb sink_rejected (pre ++ q :: post) = true).
  { rewrite existsb_app. cbn. now rewrite Hq, orb_true_r. }
  destruct (Cycle_rejected_last _ _ _ Hc Hrej)
    as (l0 & q' & tail & cause & msg & Heq & Hq' & H0 & Ht & Ha & Hr).
  assert (Htail : existsb sink_rejected tail = false).
  { now destruct Ht as [-> | ->]. }
  destruct (split_unique sink_rejected _ _ _ _ _ _ Heq Hq Hq' H0 Htail)
    as (-> & -> & ->).
  split; [assumption|]. split; [assumption|]. now exists cause, msg.
Qed.

Lemma sink_rejection_is_final_witness :
  exists cause msg,
    Some (errorString "full") = Some cause
    /\ fst (sync env_load_rejects nodes [])
       = Some (errOPA (errors.Wrap cause msg)).
Proof.
  apply (sink_rejection_is_final env_load_rejects nodes []
           [IOList (Ok {| Items := [object "default" "a";
                                    object "default" "b";
                                    object "default" "c"];
                          ResourceVersion := "v1" |});
            IOPutData "/" VEmptyMap None;
            IOPutData "a" (VObject (ObjUnstructured (object "default" "a")))
              None]
           []
           (IOPutData "b" (VObject (ObjUnstructured (object "default" "b")))
              (Some (errorString "full")))
           eq_refl eq_refl).
Defined.

(** X5.  No event is skipped.  Against a sink that accepts every call, a
    cycle whose listing succeeds and whose watch yields a sequence of
    Added, Modified and Deleted events on objects with identity metadata,
    and then closes, receives every one of them and makes exactly these
    calls to the sink: the reset, one upsert per listed item, then the call
    of each event, in order; it then ends with the channel closed. *)
Theorem every_event_applied (env : Env) (s : GenericSync) (tr : Trace)
    (result : UnstructuredList) (evts : list watch.Event) :
  (forall tr' path v, PutData_ env tr' path v = None) ->
  (forall tr' path op v, PatchData_ env tr' path op v = None) ->
  List_ env tr = Ok result ->
  (forall tr' rv, Watch_ env tr' rv = Ok (map SelEvent evts)) ->
  forallb names_object evts = true ->
  fst (sync env s tr) = Some errChannelClosed
  /\ received (snd (sync env s tr)) = received tr ++ evts
  /\ sink_calls (snd (sync env s tr))
     = sink_calls tr
         ++ reset
         :: map (fun item =>
                   upsert (storage_path (ns s) item) (ObjUnstructured item))
              (Items result)
         ++ flat_map (event_call (ns s)) evts.
Proof.
  intros Hput Hpatch Hlist Hwatch Hall.
  now apply sync_applies_all.
Qed.

Lemma every_event_applied_witness :
  received (snd (sync env_scenario pods []))
  = [event watch.Added (ObjUnstructured (object "default" "b"));
     event watch.Deleted (ObjUnstructured (object "default" "a"))]
  /\ sink_calls (snd (sync env_scenario pods []))
     = [reset;
        upsert "default/a" (ObjUnstructured (object "default" "a"));
        upsert "default/b" (ObjUnstructured (object "default" "b"));
        remove "default/a"].
Proof.
  destruct (every_event_applied env_scenario pods []
              {| Items := [object "default" "a"]; ResourceVersion := "v1" |}
              [event watch.Added (ObjUnstructured (object "default" "b"));
               event watch.Deleted (ObjUnstructured (object "default" "a"))])
    as (_ & Hr & Hs); try reflexivity.
  rewrite Hr, Hs. split; reflexivity.
Defined.

(** X6.  An event of a type other than Added, Modified, Deleted and Error
    (a bookmark, say) is not skipped over: it is the last event the cycle
    receives, no call to the sink is made for it, the cycle ends with the
    channel closed, and the retry loop goes on to the next cycle without a
    wait, the delay at its minimum. *)
Theorem unknown_event_restarts (env : Env) (s : GenericSync)
    (delay : Duration) (tr ext : Trace) (evt : watch.Event) :
  snd (sync env s tr) = tr ++ ext ->
  In (IORecv evt) ext ->
  data_event evt = false ->
  String.eqb (watch.Type_ evt) watch.Error = false ->
  (exists ext0, ext = ext0 ++ [IORecv evt; IOStop])
  /\ fst (sync env s tr) = Some errChannelClosed
  /\ loop_body env s delay tr = (Next backoffMin, tr ++ ext).
Proof.
  intros Hext Hin Hd He.
  destruct (sync_cycle_of env s tr ext Hext) as (Hc & _).
  destruct (Cycle_returning _ _ _ _ Hc Hin) as (ext0 & seg & err & -> & Hh & Hr).
  { intros seg Hh. inversion Hh; congruence. }
  inversion Hh as [e' Hd' Ha'|m Hd' Ha'|m e' Hd' Ha'|Hd' He'|Hd' He'];
    subst; try congruence.
  split; [now exists ext0|]. split; [assumption|].
  now rewrite loop_body_run, Hr, Hext.
Qed.

Lemma unknown_event_restarts_witness :
  loop_body env_bookmark nodes (8 * time.Second) []
  = (Next backoffMin,
     [IOList (Ok {| Items := []; ResourceVersion := "v1" |});
      IOPutData "/" VEmptyMap None;
      IOWatch "v1" None;
      IORecv (event "BOOKMARK" ObjNil);
      IOStop]).
Proof.
  destruct (unknown_event_restarts env_bookmark nodes (8 * time.Second) []
              (snd (sync env_bookmark nodes [])) (event "BOOKMARK" ObjNil)
              eq_refl) as (_ & _ & H).
  - vm_compute. do 3 right. left. reflexivity.
  - reflexivity.
  - reflexivity.
  - exact H.
Defined.

(** X7.  An Error event ends the cycle at once, whatever object it carries:
    it is the last event received, no call to the sink is made for it, and
    the cycle returns the error built from the event's object. *)
Theorem error_event_ends_cycle (env : Env) (s : GenericSync)
    (tr ext : Trace) (evt : watch.Event) :
  snd (sync env s tr) = tr ++ ext ->
  In (IORecv evt) ext ->
  watch.Type_ evt = watch.Error ->
  (exists ext0, ext = ext0 ++ [IORecv evt; IOStop])
  /\ fst (sync env s tr)
     = Some (errKubernetes
               (fmt.Errorf "error event: %v" (watch.Object_ evt))).
Proof.
  intros Hext Hin Ht.
  assert (Hd : data_event evt = false).
  { unfold data_event. now rewrite Ht. }
  assert (He : String.eqb (watch.Type_ evt) watch.Error = true).
  { now rewrite Ht. }
  destruct (sync_cycle_of env s tr ext Hext) as (Hc & _).
  destruct (Cycle_returning _ _ _ _ Hc Hin) as (ext0 & seg & err & -> & Hh & Hr).
  { intros seg Hh. inversion Hh; congruence. }
  inversion Hh as [e' Hd' Ha'|m Hd' Ha'|m e' Hd' Ha'|Hd' He'|Hd' He'];
    subst; try congruence.
  split; [now exists ext0|assumption].
Qed.

Lemma error_event_ends_cycle_witness :
  fst (sync env_error_event nodes [])
  = Some (errKubernetes (fmt.Errorf "error event: %v" (ObjStatus "too old"))).
Proof.
  apply (error_event_ends_cycle env_error_event nodes []
           (snd (sync env_error_event nodes []))
           (event watch.Error (ObjStatus "too old")) eq_refl).
  - vm_compute. do 3 right. left. reflexivity.
  - reflexivity.
Defined.

(* ===================================================================== *)
(** * Further properties of the retry loop *)
(* ===================================================================== *)

Lemma listings_app (a b : Trace) :
  listings (a ++ b) = listings a ++ listings b.
Proof. apply flat_map_app. Qed.

(** Every run of [loop] follows the protocol: within [fuel] iterations it
    has gone through at most [fuel] cycles, and through exactly [fuel] if
    it has not returned. *)
Lemma loop_from_Run (env : Env) (s : GenericSync) (fuel : nat) :
  forall (delay : Duration) (tr : Trace),
  exists n ext,
    snd (loop_from env s fuel delay tr) = tr ++ ext
    /\ Run (ns s) n (fst (loop_from env s fuel delay tr)) ext
    /\ (n <= fuel)%nat
    /\ (fst (loop_from env s fuel delay tr) = false -> n = fuel).
Proof.
  induction fuel as [|fuel IH]; intros delay tr.
  - exists 0%nat, []. cbn. rewrite app_nil_r.
    repeat split; auto. constructor.
  - rewrite loop_from_run, loop_body_run.
    destruct (sync_extends env s tr) as (cyc & Hcyc).
    destruct (sync_cycle_of env s tr cyc Hcyc) as (Hc & _).
    rewrite Hcyc.
    assert (Hopa : forall err,
      fst (sync env s tr) = Some err -> err <> errChannelClosed ->
      exists n ext,
        snd (match fst (on_errOPA env delay (tr ++ cyc)) with
             | Return_ => (true, snd (on_errOPA env delay (tr ++ cyc)))
             | Next delay' =>
                 loop_from env s fuel delay'
                   (snd (on_errOPA env delay (tr ++ cyc)))
             end) = tr ++ ext
        /\ Run (ns s) n
             (fst (match fst (on_errOPA env delay (tr ++ cyc)) with
                   | Return_ => (true, snd (on_errOPA env delay (tr ++ cyc)))
                   | Next delay' =>
                       loop_from env s fuel delay'
                         (snd (on_errOPA env delay (tr ++ cyc)))
                   end)) ext
        /\ (n <= S fuel)%nat
        /\ (fst (match fst (on_errOPA env delay (tr ++ cyc)) with
                 | Return_ => (true, snd (on_errOPA env delay (tr ++ cyc)))
                 | Next delay' =>
                     loop_from env s fuel delay'
                       (snd (on_errOPA env delay (tr ++ cyc)))
                 end) = false -> n = S fuel)).
    { intros err Herr Hne. rewrite Herr in Hc.
      rewrite on_errOPA_run. cbn [fst snd].
      destruct (Timer_ env (tr ++ cyc) backoffMin).
      - destruct (IH backoffMin ((tr ++ cyc) ++ [IOTimer backoffMin true]))
          as (n & ext & Hext & Hrun & Hle & Hn).
        exists (S n), (cyc ++ IOTimer backoffMin true :: ext).
        rewrite Hext. rewrite <- ?app_assoc in Hrun, Hn.
        rewrite <- !app_assoc. cbn [app] in *.
        split; [reflexivity|]. split; [now apply R_waited with err|].
        split; [lia|]. intros H. now rewrite (Hn H).
      - exists 1%nat, (cyc ++ [IOTimer backoffMin false]).
        cbn [fst snd]. rewrite <- app_assoc.
        split; [reflexivity|]. split; [now apply R_quit with err|].
        split; [lia|discriminate]. }
    destruct (fst (sync env s tr)) as [err|] eqn:Hr.
    + destruct err as [msg|f o|cause msg|];
        try (apply (Hopa _ eq_refl); discriminate).
      destruct (IH backoffMin (tr ++ cyc))
        as (n & ext & Hext & Hrun & Hle & Hn).
      exists (S n), (cyc ++ ext). cbn [fst snd]. rewrite Hext, <- app_assoc.
      split; [reflexivity|]. split; [now apply R_closed|].
      split; [lia|]. intros H. now rewrite (Hn H).
    + exists 1%nat, cyc. cbn [fst snd].
      split; [reflexivity|]. split; [now apply R_stopped|].
      split; [lia|discriminate].
Qed.

Section RunFacts.

Variable rt : types.ResourceType.

(** A cycle lists once and never waits. *)
Lemma Cycle_plain (ext : Trace) (r : option error) :
  Cycle rt ext r ->
  waits ext = [] /\ List.length (listings ext) = 1%nat.
Proof.
  destruct 1 as [e|result e|result ext err Hl|result ext e Hl
                 |result ext evs r Hl Hc].
  - now split.
  - now split.
  - apply Loaded_sink, sink_plain in Hl. destruct Hl as (Hl & Hw & _).
    cbn. fold (waits ext) (listings ext). now rewrite Hl, Hw.
  - apply Loaded_sink, sink_plain in Hl. destruct Hl as (Hl & Hw & _).
    cbn. fold (waits (ext ++ [IOWatch (GetResourceVersion result) (Some e)])).
    fold (listings (ext ++ [IOWatch (GetResourceVersion result) (Some e)])).
    now rewrite waits_app, listings_app, Hl, Hw.
  - apply Loaded_sink, sink_plain in Hl. destruct Hl as (Hl & Hw & _).
    apply Consumed_loop_io, loop_io_plain in Hc. destruct Hc as (Hl' & Hw' & _).
    change (IOList (Ok result) :: reset_io None :: ext
              ++ IOWatch (GetResourceVersion result) None :: evs ++ [IOStop])
      with ([IOList (Ok result); reset_io None]
              ++ ext ++ [IOWatch (GetResourceVersion result) None]
              ++ evs ++ [IOStop]).
    now rewrite !waits_app, !listings_app, Hl, Hw, Hl', Hw'.
Qed.

Lemma Run_waits (n : nat) (returned : bool) (ext : Trace) :
  Run rt n returned ext ->
  Forall (fun d => d = backoffMin) (waits ext)
  /\ (List.length (waits ext) <= n)%nat.
Proof.
  induction 1 as [|cyc Hc|cyc rest n b Hc Hrun IH|cyc err Hc Hne
                  |cyc rest err n b Hc Hne Hrun IH];
    try (apply Cycle_plain in Hc; destruct Hc as (Hw & _));
    rewrite ?waits_app, ?Hw; cbn.
  - split; [constructor|lia].
  - split; [constructor|lia].
  - destruct IH as (IH1 & IH2). split; [assumption|lia].
  - split; [now repeat constructor|lia].
  - fold (waits rest). destruct IH as (IH1 & IH2).
    split; [now constructor|lia].
Qed.

Lemma Run_listings (n : nat) (returned : bool) (ext : Trace) :
  Run rt n returned ext -> List.length (listings ext) = n.
Proof.
  induction 1 as [|cyc Hc|cyc rest n b Hc Hrun IH|cyc err Hc Hne
                  |cyc rest err n b Hc Hne Hrun IH];
    try (apply Cycle_plain in Hc; destruct Hc as (_ & Hl));
    rewrite ?listings_app, ?length_app, ?Hl; cbn; auto.
Qed.

Lemma Run_returned (n : nat) (returned : bool) (ext : Trace) :
  Run rt n returned ext ->
  existsb stop_observed ext = returned.
Proof.
  induction 1 as [|cyc Hc|cyc rest n b Hc Hrun IH|cyc err Hc Hne
                  |cyc rest err n b Hc Hne Hrun IH];
    try (apply Cycle_stop in Hc).
  - reflexivity.
  - destruct Hc as (ext0 & -> & _). rewrite existsb_app. cbn.
    now rewrite orb_true_r.
  - rewrite existsb_app. cbn in Hc. now rewrite Hc.
  - rewrite existsb_app. cbn. now rewrite orb_true_r.
  - rewrite existsb_app. cbn. cbn in Hc. now rewrite Hc.
Qed.

End RunFacts.

Section Freshness.

Variable rt : types.ResourceType.

Lemma plain_fresh (l rest : Trace) (token : option string) :
  forallb (fun e => negb (is_source e)) l = true ->
  watches_fresh token (l ++ rest) = watches_fresh token rest.
Proof.
  induction l as [|e l IH]; cbn [app forallb]; [reflexivity|].
  intros H. apply andb_true_iff in H. destruct H as [He Hl].
  destruct e; try discriminate; cbn; now apply IH.
Qed.

Lemma Cycle_fresh (cyc rest : Trace) (r : option error) :
  Cycle rt cyc r ->
  (forall token, watches_fresh token rest = true) ->
  forall token, watches_fresh token (cyc ++ rest) = true.
Proof.
  intros Hc Hrest token.
  destruct Hc as [e|result e|result ext err Hl|result ext e Hl
                  |result ext evs r Hl Hc].
  - cbn. apply Hrest.
  - cbn. apply Hrest.
  - apply Loaded_sink, sink_plain in Hl. destruct Hl as (_ & _ & _ & _ & Hl).
    cbn. rewrite plain_fresh by assumption. apply Hrest.
  - apply Loaded_sink, sink_plain in Hl. destruct Hl as (_ & _ & _ & _ & Hl).
    cbn. rewrite <- app_assoc, plain_fresh by assumption. cbn.
    rewrite String.eqb_refl. apply Hrest.
  - apply Loaded_sink, sink_plain in Hl. destruct Hl as (_ & _ & _ & _ & Hl).
    apply Consumed_loop_io, loop_io_plain in Hc.
    destruct Hc as (_ & _ & _ & _ & Hc).
    cbn. rewrite <- app_assoc, plain_fresh by assumption. cbn.
    rewrite String.eqb_refl. cbn.
    rewrite <- app_assoc, plain_fresh by assumption. cbn. apply Hrest.
Qed.

Lemma Run_fresh (n : nat) (returned : bool) (ext : Trace) :
  Run rt n returned ext ->
  forall token, watches_fresh token ext = true.
Proof.
  induction 1 as [|cyc Hc|cyc rest n b Hc Hrun IH|cyc err Hc Hne
                  |cyc rest err n b Hc Hne Hrun IH].
  - reflexivity.
  - rewrite <- (app_nil_r cyc). now apply Cycle_fresh with (r := None).
  - now apply Cycle_fresh with (r := Some errChannelClosed).
  - now apply Cycle_fresh with (r := Some err).
  - apply Cycle_fresh with (r := Some err); [assumption|].
    intros token. cbn. apply IH.
Qed.

End Freshness.

(** X8.  Whatever fails, and however often in a row, every wait of the
    retry loop lasts exactly the minimum, one second: the doubling of the
    Kubernetes case never takes effect.  Within [fuel] iterations there are
    at most [fuel] waits. *)
Theorem every_wait_is_the_minimum (env : Env) (s : GenericSync) (fuel : nat)
    (tr : Trace) :
  exists k,
    (k <= fuel)%nat
    /\ waits (snd (loop env s fuel tr)) = waits tr ++ repeat backoffMin k.
Proof.
  unfold loop.
  destruct (loop_from_Run env s fuel backoffMin tr)
    as (n & ext & Hext & Hrun & Hle & _).
  apply Run_waits in Hrun. destruct Hrun as (Hall & Hlen).
  exists (List.length (waits ext)). split; [lia|].
  rewrite Hext, waits_app. f_equal. apply Forall_eq_repeat.
  revert Hall. apply Forall_impl. intros d Hd. now symmetry.
Qed.

(** X9.  The worker never gives up.  [loop] has returned exactly when the
    stop signal was observed; as long as it was not, every iteration has
    started a new cycle with a listing, whatever the earlier cycles ended
    with. *)
Theorem loop_returns_only_on_stop (env : Env) (s : GenericSync) (fuel : nat)
    (tr ext : Trace) :
  snd (loop env s fuel tr) = tr ++ ext ->
  fst (loop env s fuel tr) = existsb stop_observed ext
  /\ (List.length (listings ext) <= fuel)%nat
  /\ (existsb stop_observed ext = false ->
      List.length (listings ext) = fuel).
Proof.
  unfold loop. intros Hext.
  destruct (loop_from_Run env s fuel backoffMin tr)
    as (n & ext' & Hext' & Hrun & Hle & Hn).
  rewrite Hext in Hext'. apply app_inv_head in Hext'. subst ext'.
  pose proof (Run_returned _ _ _ _ Hrun) as Hret.
  pose proof (Run_listings _ _ _ _ Hrun) as Hlist.
  split; [now symmetry|]. split; [lia|].
  intros Hno. rewrite Hlist. apply Hn. congruence.
Qed.

Lemma loop_returns_only_on_stop_witness :
  fst (loop env_list_fails nodes 4 []) = false
  /\ List.length (listings (snd (loop env_list_fails nodes 4 []))) = 4%nat.
Proof.
  destruct (loop_returns_only_on_stop env_list_fails nodes 4 []
              (snd (loop env_list_fails nodes 4 [])) eq_refl)
    as (Hret & _ & Hn).
  split; [exact Hret|]. apply Hn. reflexivity.
Defined.

(** X10.  A cycle returns [nil] only when a select of its event loop picked
    the stop signal.  By then the listing had succeeded, the sink had been
    reset and every listed item upserted, no call had been rejected, and the
    watch had been opened: a graceful stop never interrupts the snapshot
    load. *)
Theorem graceful_stop_after_full_load (env : Env) (s : GenericSync)
    (tr ext : Trace) :
  snd (sync env s tr) = tr ++ ext ->
  fst (sync env s tr) = None ->
  (exists ext0, ext = ext0 ++ [IOQuit; IOStop])
  /\ existsb is_open_watch ext = true
  /\ existsb sink_rejected ext = false
  /\ exists result rest,
       List_ env tr = Ok result
       /\ sink_calls ext
          = reset
            :: map (fun item =>
                      upsert (storage_path (ns s) item) (ObjUnstructured item))
                 (Items result)
            ++ rest.
Proof.
  intros Hext Hr.
  destruct (sync_cycle_of env s tr ext Hext) as (Hc & Hhd).
  rewrite Hr in Hc.
  pose proof (Cycle_stop _ _ _ Hc) as (ext0 & Hlast & _).
  assert (Hrej : existsb sink_rejected ext = false).
  { destruct (existsb sink_rejected ext) eqn:E; [|reflexivity].
    destruct (Cycle_rejected _ _ _ Hc E) as (e & msg & H). discriminate. }
  split; [now exists ext0|].
  inversion Hc as [| | | |result loaded evs r Hl Hcons Heq Hnone].
  rewrite <- Heq in Hhd, Hrej. cbn in Hhd. injection Hhd as Hlist.
  destruct (Loaded_calls _ _ _ Hl) as (Hs & _ & _).
  split.
  { cbn. rewrite existsb_app. cbn. now rewrite orb_true_r. }
  split; [assumption|].
  exists result, (sink_calls evs). split; [now symmetry|].
  change (IOList (Ok result) :: reset_io None :: loaded
            ++ IOWatch (GetResourceVersion result) None :: evs ++ [IOStop])
    with ([IOList (Ok result); reset_io None]
            ++ loaded ++ [IOWatch (GetResourceVersion result) None]
            ++ evs ++ [IOStop]).
  rewrite !sink_calls_app, Hs. cbn. now rewrite app_nil_r.
Qed.

Lemma graceful_stop_after_full_load_witness :
  exists result rest,
    List_ env_quit [] = Ok result
    /\ sink_calls (snd (sync env_quit nodes []))
       = reset
         :: map (fun item =>
                   upsert (storage_path (ns nodes) item)
                     (ObjUnstructured item))
              (Items result)
         ++ rest.
Proof.
  apply (graceful_stop_after_full_load env_quit nodes []
           (snd (sync env_quit nodes [])) eq_refl eq_refl).
Defined.

(** X11.  In every run of the worker, over any number of cycles, each watch
    is opened at the resource version of the listing made just before it in
    the same cycle: a resource version is never carried over from an
    earlier cycle, and never used for two watches. *)
Theorem watch_tokens_always_fresh (env : Env) (s : GenericSync) (fuel : nat)
    (tr ext : Trace) :
  snd (loop env s fuel tr) = tr ++ ext ->
  forall token, watches_fresh token ext = true.
Proof.
  unfold loop. intros Hext.
  destruct (loop_from_Run env s fuel backoffMin tr)
    as (n & ext' & Hext' & Hrun & _).
  rewrite Hext in Hext'. apply app_inv_head in Hext'. subst ext'.
  now apply Run_fresh with (rt := ns s) (n := n)
    (returned := fst (loop_from env s fuel backoffMin tr)).
Qed.

Lemma watch_tokens_always_fresh_witness :
  watches_fresh None (snd (loop env_scenario nodes 3 [])) = true.
Proof.
  apply (watch_tokens_always_fresh env_scenario nodes 3 []
           (snd (loop env_scenario nodes 3 [])) eq_refl).
Defined.

(* ===================================================================== *)
(** * Further properties of paths and of the backoff *)
(* ===================================================================== *)

Lemma append_slash_inj (a a' b b' : string) :
  has_slash a = false ->
  has_slash a' = false ->
  (a ++ "/" ++ b)%string = (a' ++ "/" ++ b')%string ->
  a = a' /\ b = b'.
Proof.
  revert a'. induction a as [|c a IH]; intros [|c' a']; cbn; intros Ha Ha' H.
  - injection H as ->. now split.
  - injection H as <- _. discriminate.
  - injection H as -> _. discriminate.
  - apply orb_false_iff in Ha. destruct Ha as [_ Ha].
    apply orb_false_iff in Ha'. destruct Ha' as [_ Ha'].
    injection H as -> H. destruct (IH a' Ha Ha' H) as [-> ->]. now split.
Qed.

(** X12.  Distinct objects never overwrite each other.  If [syncAdd] puts
    two objects at one and the same path, they have the same name and, for
    a namespaced resource type, the same namespace, provided neither
    namespace contains a slash. *)
Theorem same_path_same_object (env : Env) (s : GenericSync)
    (obj1 obj2 : Object) (m1 m2 : Unstructured) (tr1 tr2 : Trace)
    (path : string) (v1 v2 : Value) (r1 r2 : option error) :
  meta.Accessor obj1 = Ok m1 ->
  meta.Accessor obj2 = Ok m2 ->
  has_slash (Namespace m1) = false ->
  has_slash (Namespace m2) = false ->
  snd (syncAdd env s obj1 tr1) = tr1 ++ [IOPutData path v1 r1] ->
  snd (syncAdd env s obj2 tr2) = tr2 ++ [IOPutData path v2 r2] ->
  Name m1 = Name m2
  /\ (types.Namespaced (ns s) = true -> Namespace m1 = Namespace m2).
Proof.
  intros Ha1 Ha2 Hs1 Hs2 H1 H2.
  rewrite syncAdd_run, Ha1 in H1. rewrite syncAdd_run, Ha2 in H2.
  cbn [snd] in H1, H2.
  apply app_inv_head in H1. apply app_inv_head in H2.
  injection H1 as Hp1 _ _. injection H2 as Hp2 _ _.
  unfold storage_path in Hp1, Hp2.
  destruct (types.Namespaced (ns s)).
  - rewrite <- Hp2 in Hp1.
    destruct (append_slash_inj _ _ _ _ Hs1 Hs2 Hp1) as [Hn Hm].
    split; [assumption|]. now intros _.
  - split; [congruence|discriminate].
Qed.

Lemma same_path_same_object_witness :
  Name (object "prod" "web") = Name (object "prod" "web")
  /\ (types.Namespaced (ns pods) = true ->
      Namespace (object "prod" "web") = Namespace (object "prod" "web")).
Proof.
  apply (same_path_same_object env_scenario pods
           (ObjUnstructured (object "prod" "web"))
           (ObjUnstructured (object "prod" "web"))
           (object "prod" "web") (object "prod" "web") [] [IOStop]
           "prod/web"
           (VObject (ObjUnstructured (object "prod" "web")))
           (VObject (ObjUnstructured (object "prod" "web")))
           None None); reflexivity.
Defined.

(** X13.  The delay of the Kubernetes case has a closed form: after [n]
    doublings from the minimum it is the smaller of [2^n] seconds and 30
    seconds, without overflow; from the fifth doubling on it stays at 30
    seconds. *)
Theorem backoff_saturates (n : nat) :
  Nat.iter n grow backoffMin
  = Z.min (2 ^ Z.of_nat n * time.Second) backoffMax
  /\ Nat.iter (5 + n) grow backoffMin = backoffMax.
Proof.
  assert (Hform : forall k,
    Nat.iter k grow backoffMin
    = Z.min (2 ^ Z.of_nat k * time.Second) backoffMax).
  { induction k as [|k IH]; [reflexivity|].
    rewrite Nat.iter_succ, IH, Nat2Z.inj_succ, Z.pow_succ_r by lia.
    assert (Hpos : 0 < 2 ^ Z.of_nat k) by (apply Z.pow_pos_nonneg; lia).
    rewrite grow_spec.
    - unfold backoffMax, time.Second, time.Nanosecond. lia.
    - unfold backoffMax, time.Second, time.Nanosecond. lia. }
  split; [apply Hform|].
  rewrite Hform, Nat2Z.inj_add, Z.pow_add_r by lia.
  assert (Hpos : 0 < 2 ^ Z.of_nat n) by (apply Z.pow_pos_nonneg; lia).
  change (2 ^ Z.of_nat 5) with 32.
  unfold backoffMax, time.Second, time.Nanosecond. lia.
Qed.

(* ===================================================================== *)
(** * The cycle and the events its watcher yields *)
(* ===================================================================== *)

Section Yielded.

Variable env : Env.
Variable s : GenericSync.




End Yielded.




(* ===================================================================== *)
(** * Failures of the source and the retry loop *)
(* ===================================================================== *)

(** A worker whose every listing fails with [e], while every wait runs
    out: each iteration is one failed listing and one wait of the
    minimum, whatever the delay it started with. *)
Lemma loop_from_listing_fails (e : error) (s : GenericSync) (n : nat) :
  forall (delay : Duration) (tr : Trace),
    let env := quiet (fun _ => Err e) (fun _ _ => Ok []) in
    listings (snd (loop_from env s n delay tr))
    = listings tr ++ repeat (Err e) n
    /\ waits (snd (loop_from env s n delay tr))
       = waits tr ++ repeat backoffMin n.
Proof.
  induction n as [|n IH]; intros delay tr env.
  - cbn. now rewrite !app_nil_r.
  - rewrite loop_from_run, loop_body_run.
    change (sync env s tr)
      with (Some (errKubernetes (errors.Wrap e "list")),
            tr ++ [IOList (Err e)]).
    cbn [fst snd errKubernetes errors.Wrap]. rewrite on_errOPA_run.
    cbn [fst snd].
    change (Timer_ env (tr ++ [IOList (Err e)]) backoffMin) with true.
    cbn [fst snd].
    destruct (IH backoffMin
                ((tr ++ [IOList (Err e)]) ++ [IOTimer backoffMin true]))
      as (Hl & Hw).
    fold env in Hl, Hw. rewrite Hl, Hw.
    rewrite !listings_app, !waits_app, <- !app_assoc. cbn.
    now split.
Qed.

(** C1 fails on the code.  When every listing fails, so that every cycle
    ends with [errKubernetes(errors.Wrap(err, "list"))], and every wait runs
    out, the retry loop waits the minimum, one second, each time: after
    three consecutive failures the waits are 1, 1 and 1 seconds, not 1, 2
    and 4, and however long the sequence the delay never grows. *)
Theorem source_failures_never_back_off (e : error) (s : GenericSync)
    (n : nat) (tr : Trace) :
  let env := quiet (fun _ => Err e) (fun _ _ => Ok []) in
  listings (snd (loop env s n tr)) = listings tr ++ repeat (Err e) n
  /\ waits (snd (loop env s n tr)) = waits tr ++ repeat backoffMin n
  /\ waits (snd (loop env s 3 []))
     = [1 * time.Second; 1 * time.Second; 1 * time.Second]
  /\ waits (snd (loop env s 3 []))
     <> [1 * time.Second; 2 * time.Second; 4 * time.Second].
Proof.
  intros env. unfold loop.
  destruct (loop_from_listing_fails e s n backoffMin tr) as (Hl & Hw).
  destruct (loop_from_listing_fails e s 3 backoffMin []) as (_ & Hw3).
  fold env in Hl, Hw, Hw3.
  split; [assumption|]. split; [assumption|].
  rewrite Hw3. split; [reflexivity|]. cbn. discriminate.
Qed.
